(** * checkoutbot: the Store / Register / Cart model of [store.py]

    A shallow embedding of [checkoutbot/store.py].  Python objects that are
    mutated in place become explicit states; a method of a class is a
    computation over the state of its receiver.  Exceptions and the
    blocking [acquire] of a lock that is already held are outcomes of a
    computation, next to the normal return. *)

From stdpp Require Import gmap strings list fin_maps.
From Stdlib Require Import ZArith Lia.

(** ** Python values *)

(** [sys.maxsize] of a 64-bit CPython: the largest length a container can
    have on the platform. *)
Definition sys_maxsize : Z := 2 ^ 63 - 1.

(** The exceptions the module can raise.  [Exception] is the plain
    [Exception(msg)] of the source, [ValueError] is what
    [multiprocessing.Lock.release] raises on a lock that is not held.
    [WildReference] is not a Python exception: it marks a register
    reference that designates no register of the pool, which an object
    reference in Python cannot do. *)
Inductive exn : Type :=
| Exception (msg : string)
| ValueError (msg : string)
| WildReference.

(** ** Insertion-ordered dictionaries

    A Python [dict] iterates in insertion order and [getRegisterState]
    exposes that order, so a cart map is an association list.  Assigning
    to a key that is present keeps its position; a new key goes last. *)
Module PyDict.
Section ops.
Context {K V : Type} `{EqDecision K}.

(** [d[k]], [None] standing for [KeyError]. *)
Fixpoint get (k : K) (d : list (K * V)) : option V :=
  match d with
  | [] => None
  | (k', v) :: d' => if decide (k = k') then Some v else get k d'
  end.

(** [k in d] *)
Definition contains (k : K) (d : list (K * V)) : bool :=
  match get k d with Some _ => true | None => false end.

(** [d[k] = v] *)
Fixpoint set (k : K) (v : V) (d : list (K * V)) : list (K * V) :=
  match d with
  | [] => [(k, v)]
  | (k', v') :: d' =>
      if decide (k = k') then (k', v) :: d' else (k', v') :: set k v d'
  end.

(** [del d[k]]; the source guards every deletion by [k in d]. *)
Fixpoint del (k : K) (d : list (K * V)) : list (K * V) :=
  match d with
  | [] => []
  | (k', v') :: d' =>
      if decide (k = k') then d' else (k', v') :: del k d'
  end.

(** [d.keys()] and [d.values()], in iteration order. *)
Definition keys (d : list (K * V)) : list K := d.*1.
Definition values (d : list (K * V)) : list V := d.*2.
End ops.
End PyDict.

(** ** Outcomes and computations over a state *)

Inductive outcome (S A : Type) : Type :=
| Returns (a : A) (s : S)      (* normal return, in state [s] *)
| Raises (e : exn) (s : S)     (* an exception propagates, in state [s] *)
| Blocks.                      (* [acquire] on a held lock: never returns *)
Arguments Returns {S A} a s.
Arguments Raises {S A} e s.
Arguments Blocks {S A}.

Definition M (S A : Type) : Type := S → outcome S A.

Definition ret {S A} (a : A) : M S A := λ s, Returns a s.
Definition raise {S A} (e : exn) : M S A := λ s, Raises e s.
Definition bind {S A B} (m : M S A) (k : A → M S B) : M S B :=
  λ s, match m s with
       | Returns a s' => k a s'
       | Raises e s' => Raises e s'
       | Blocks => Blocks
       end.
Definition get {S} : M S S := λ s, Returns s s.
Definition modify {S} (f : S → S) : M S unit := λ s, Returns () (f s).
(** A call that only reads its receiver. *)
Definition query {S A} (f : S → A) : M S A := λ s, Returns (f s) s.

Declare Scope py_scope.
Delimit Scope py_scope with py.
Notation "x ← m ; k" := (bind m (λ x, k))
  (at level 20, m at level 100, k at level 200, only parsing) : py_scope.
Notation "m ;; k" := (bind m (λ _, k))
  (at level 100, k at level 200, only parsing, right associativity) : py_scope.
Local Open Scope py_scope.

(** [for x in xs: body x] *)
Fixpoint for_each {S A} (xs : list A) (body : A → M S unit) : M S unit :=
  match xs with
  | [] => ret ()
  | x :: xs' => body x ;; for_each xs' body
  end.

(** ** Cart *)

(** Customer and item ids are opaque tokens; the adapter passes the
    strings of the request form. *)
Module Cart.
Record t : Type := mk {
  customer_id : string;   (* the customer that purchases the items *)
  items : list string;    (* ids of the items, in the order they were added *)
}.

(** [Cart.__init__] *)
Definition init (customer_id : string) : t :=
  {| customer_id := customer_id; items := [] |}.

(** [Cart.size] *)
Definition size (self : t) : Z := Z.of_nat (length (items self)).

(** [Cart.addItem] *)
Definition addItem (item_id : string) (self : t) : t :=
  {| customer_id := customer_id self; items := items self ++ [item_id] |}.
End Cart.

(** ** Register *)

Definition cart_missing : exn :=
  Exception "A cart to checkout does not exist for the given customer.".
Definition released_too_often : exn :=
  ValueError "semaphore or lock released too many times".

Module Register.
Record t : Type := mk {
  register_id : nat;
  customer_cart_map : list (string * Cart.t);
  lock : bool;          (* [true] while the [multiprocessing.Lock] is held *)
}.

Definition set_carts (f : list (string * Cart.t) → list (string * Cart.t))
    (self : t) : t :=
  {| register_id := register_id self;
     customer_cart_map := f (customer_cart_map self);
     lock := lock self |}.

Definition set_lock (b : bool) (self : t) : t :=
  {| register_id := register_id self;
     customer_cart_map := customer_cart_map self;
     lock := b |}.

(** [Register.__init__] *)
Definition init (register_id : nat) : t :=
  {| register_id := register_id; customer_cart_map := []; lock := false |}.

(** [Register.lockRegister]: [self.lock.acquire()] *)
Definition lockRegister : M t unit :=
  λ self, if lock self then Blocks else Returns () (set_lock true self).

(** [Register.unlockRegister]: [self.lock.release()] *)
Definition unlockRegister : M t unit :=
  λ self, if lock self then Returns () (set_lock false self)
          else Raises released_too_often self.

(** [Register.addItemToCart] *)
Definition addItemToCart (customer_id item_id : string) : M t unit :=
  lockRegister ;;
  self ← get;
  match PyDict.get customer_id (customer_cart_map self) with
  | Some cart =>
      modify (set_carts (PyDict.set customer_id (Cart.addItem item_id cart)))
  | None =>
      let cart := Cart.init customer_id in
      let cart := Cart.addItem item_id cart in
      modify (set_carts (PyDict.set customer_id cart))
  end ;;
  unlockRegister.

(** [Register.checkoutCart]: the [raise] leaves the method at once, the
    [unlockRegister] below it is not run on that path. *)
Definition checkoutCart (customer_id : string) : M t unit :=
  lockRegister ;;
  self ← get;
  (if PyDict.contains customer_id (customer_cart_map self)
   then modify (set_carts (PyDict.del customer_id))
   else raise cart_missing) ;;
  unlockRegister.

(** [Register.getTotalItems] *)
Definition getTotalItems (self : t) : Z :=
  foldl (λ total_items cart, (total_items + Cart.size cart)%Z) 0%Z
        (PyDict.values (customer_cart_map self)).

(** [Register.getRegisterState] *)
Definition getRegisterState (self : t) : list string :=
  foldl (λ register_state cart,
           register_state
             ++ replicate (Z.to_nat (Cart.size cart)) (Cart.customer_id cart))
        [] (PyDict.values (customer_cart_map self)).
End Register.

(** ** Store

    [register_map] holds references to the [Register] objects of
    [registers]: the same object is reached through the pool and through
    the routing table.  The pool is the store of these objects and a
    reference is the position of the object in it; the pool is built once
    by [__init__] and never resized. *)

Definition no_cart : exn :=
  Exception "Attempted to checkout customer without a cart".
Definition invalid_register_state : exn :=
  Exception "Invalid register state".

Module Store.
Record t : Type := mk {
  registers : list Register.t;
  register_map : gmap string nat;
}.

Definition set_registers (f : list Register.t → list Register.t)
    (self : t) : t :=
  {| registers := f (registers self); register_map := register_map self |}.

Definition set_register_map (f : gmap string nat → gmap string nat)
    (self : t) : t :=
  {| registers := registers self; register_map := f (register_map self) |}.

(** [Store.__init__]; [range(n)] is empty for [n <= 0]. *)
Definition init (num_registers : Z) : t :=
  {| registers := Register.init <$> seq 0 (Z.to_nat num_registers);
     register_map := ∅ |}.

(** A method call on the register that [register] refers to: the
    register is read from the pool, the method runs on it, and the
    register it leaves behind is what the pool then holds. *)
Definition on_register {A} (register : nat) (m : M Register.t A) : M t A :=
  λ self,
    match registers self !! register with
    | Some r =>
        match m r with
        | Returns a r' => Returns a (set_registers <[register := r']> self)
        | Raises e r' => Raises e (set_registers <[register := r']> self)
        | Blocks => Blocks
        end
    | None => Raises WildReference self
    end.

(** [for register in self.registers]: the references, in pool order. *)
Definition pool (self : t) : list nat := seq 0 (length (registers self)).

(** [Store.lockRegisters] *)
Definition lockRegisters : M t unit :=
  self ← get;
  for_each (pool self) (λ register, on_register register Register.lockRegister).

(** [Store.unlockRegisters] *)
Definition unlockRegisters : M t unit :=
  self ← get;
  for_each (pool self) (λ register, on_register register Register.unlockRegister).

(** The [for] loop of [getLeastUtilizedRegister] over the registers
    still to visit, together with the code after the loop. *)
Fixpoint least_utilized_loop (rest : list nat) (lowest_items : Z)
    (lowest_utilized_register : option nat) : M t nat :=
  match rest with
  | register :: rest' =>
      total_items ← on_register register (query Register.getTotalItems);
      if (total_items =? 0)%Z then
        unlockRegisters ;;
        ret register
      else if (lowest_items >? total_items)%Z then
        least_utilized_loop rest' total_items (Some register)
      else
        least_utilized_loop rest' lowest_items lowest_utilized_register
  | [] =>
      match lowest_utilized_register with
      | None => raise invalid_register_state
      | Some register =>
          unlockRegisters ;;
          ret register
      end
  end.

(** [Store.getLeastUtilizedRegister] *)
Definition getLeastUtilizedRegister : M t nat :=
  lockRegisters ;;
  self ← get;
  least_utilized_loop (pool self) sys_maxsize None.

(** [Store.assignItem] *)
Definition assignItem (customer_id item_id : string) : M t unit :=
  self ← get;
  match register_map self !! customer_id with
  | Some register =>
      on_register register (Register.addItemToCart customer_id item_id)
  | None =>
      register ← getLeastUtilizedRegister;
      on_register register (Register.addItemToCart customer_id item_id) ;;
      modify (set_register_map <[customer_id := register]>)
  end.

(** [Store.checkoutCustomer] *)
Definition checkoutCustomer (customer_id : string) : M t unit :=
  self ← get;
  match register_map self !! customer_id with
  | Some register =>
      on_register register (Register.checkoutCart customer_id) ;;
      modify (set_register_map (delete customer_id))
  | None => raise no_cart
  end.

(** The loop of [getAllRegisterState]. *)
Fixpoint all_state_loop (rest : list nat) (state : gmap nat (list string))
    : M t (gmap nat (list string)) :=
  match rest with
  | register :: rest' =>
      register_state ← on_register register (query Register.getRegisterState);
      id ← on_register register (query Register.register_id);
      all_state_loop rest' (<[id := register_state]> state)
  | [] => ret state
  end.

(** [Store.getAllRegisterState] *)
Definition getAllRegisterState : M t (gmap nat (list string)) :=
  lockRegisters ;;
  self ← get;
  state ← all_state_loop (pool self) ∅;
  unlockRegisters ;;
  ret state.
End Store.

(** ** The operations of the HTTP adapter and their runs

    [api.py] turns a request into one call on the live store: [/add]
    into [assignItem], [/checkout] into [checkoutCustomer].  An exception
    ends the request, not the process: the next call finds the store as
    the failed call left it. *)

Inductive op : Type :=
| AssignItem (customer_id item_id : string)
| CheckoutCustomer (customer_id : string).

Global Instance op_eq_dec : EqDecision op.
Proof. solve_decision. Defined.

Definition call (o : op) : M Store.t unit :=
  match o with
  | AssignItem customer_id item_id => Store.assignItem customer_id item_id
  | CheckoutCustomer customer_id => Store.checkoutCustomer customer_id
  end.

(** The cart of [customer_id] held by the register at [register], and the
    items pending in it. *)
Definition cart_at (customer_id : string) (register : nat) (s : Store.t)
    : option Cart.t :=
  match Store.registers s !! register with
  | Some r => PyDict.get customer_id (Register.customer_cart_map r)
  | None => None
  end.

Definition pending (customer_id : string) (register : nat) (s : Store.t)
    : list string :=
  from_option Cart.items [] (cart_at customer_id register s).

(** The items a checkout of [customer_id] takes away: those of the cart
    the routing table leads to. *)
Definition items_in_cart (customer_id : string) (s : Store.t) : Z :=
  match Store.register_map s !! customer_id with
  | Some register => Z.of_nat (length (pending customer_id register s))
  | None => 0
  end.

(** A tally of the calls that succeeded. *)
Record tally : Type := mkTally {
  assigned : Z;     (* successful [assignItem] calls *)
  removed : Z;      (* items taken away by successful [checkoutCustomer] calls *)
}.

Definition tally0 : tally := {| assigned := 0; removed := 0 |}.

Definition credit (o : op) (before : Store.t) (t : tally) : tally :=
  match o with
  | AssignItem _ _ => {| assigned := assigned t + 1; removed := removed t |}
  | CheckoutCustomer c =>
      {| assigned := assigned t; removed := removed t + items_in_cart c before |}
  end.

(** A run of calls; [None] when a call blocks, for then the next call is
    never made. *)
Fixpoint run (ops : list op) (s : Store.t) (t : tally)
    : option (Store.t * tally) :=
  match ops with
  | [] => Some (s, t)
  | o :: ops' =>
      match call o s with
      | Returns _ s' => run ops' s' (credit o s t)
      | Raises _ s' => run ops' s' t
      | Blocks => None
      end
  end.

(** The items [ops] assigns to [customer_id], in order. *)
Fixpoint assigned_to (customer_id : string) (ops : list op) : list string :=
  match ops with
  | [] => []
  | AssignItem c i :: ops' =>
      if decide (c = customer_id) then i :: assigned_to customer_id ops'
      else assigned_to customer_id ops'
  | CheckoutCustomer _ :: ops' => assigned_to customer_id ops'
  end.

(** ** Vocabulary of the properties *)

(** No lock of the pool is held. *)
Definition locks_free (s : Store.t) : Prop :=
  Forall (λ r, Register.lock r = false) (Store.registers s).

Global Instance locks_free_dec s : Decision (locks_free s).
Proof. unfold locks_free. apply _. Defined.

(** Every register holds fewer items than [sys.maxsize].  The items of a
    register are the elements of the [items] lists of its carts, which
    exist in memory, and [sys.maxsize] is the largest size a container can
    have: a store of a running program is representable.  The scan starts
    from [lowest_items = sys.maxsize], so this is what it relies on. *)
Definition representable (s : Store.t) : Prop :=
  Forall (λ r, (Register.getTotalItems r < sys_maxsize)%Z) (Store.registers s).

(** The store with every lock taken, as [lockRegisters] leaves it. *)
Definition lock_all (s : Store.t) : Store.t :=
  Store.set_registers (fmap (Register.set_lock true)) s.

(** The totals that the scan of [getLeastUtilizedRegister] reads. *)
Definition totals (s : Store.t) : list Z :=
  Register.getTotalItems <$> Store.registers s.

(** The choice of the scan as a function of the totals: [i] is the
    position of the head of [ts] in the pool. *)
Fixpoint select (ts : list Z) (i : nat) (lowest_items : Z)
    (lowest : option nat) : option nat :=
  match ts with
  | [] => lowest
  | t :: ts' =>
      if (t =? 0)%Z then Some i
      else if (lowest_items >? t)%Z then select ts' (S i) t (Some i)
      else select ts' (S i) lowest_items lowest
  end.

(** [i] is the first position of [ts] that holds zero. *)
Definition first_empty (ts : list Z) (i : nat) : Prop :=
  ts !! i = Some 0%Z ∧ Forall (λ t, t ≠ 0%Z) (take i ts).

(** [i] holds the least total of [ts], and every earlier position holds a
    strictly greater one. *)
Definition first_least (ts : list Z) (i : nat) : Prop :=
  ∃ t, ts !! i = Some t
       ∧ Forall (λ t', (t ≤ t')%Z) ts
       ∧ Forall (λ t', (t < t')%Z) (take i ts).

(** What the scan has established when it has read the totals [seen]
    without returning. *)
Definition scanned (seen : list Z) (lowest_items : Z) (lowest : option nat)
    : Prop :=
  Forall (λ t, t ≠ 0%Z) seen
  ∧ match lowest with
    | None => Forall (λ t, (lowest_items ≤ t)%Z) seen
    | Some i =>
        seen !! i = Some lowest_items
        ∧ Forall (λ t, (lowest_items ≤ t)%Z) seen
        ∧ Forall (λ t, (lowest_items < t)%Z) (take i seen)
    end.

(** The items held by the carts of a cart map, and their owners in
    iteration order. *)
Definition items_of_carts (d : list (string * Cart.t)) : Z :=
  foldr (λ kv acc, (Cart.size kv.2 + acc)%Z) 0%Z d.

Definition owners_of_carts (d : list (string * Cart.t)) : list string :=
  foldr (λ kv acc,
           replicate (length (Cart.items kv.2)) (Cart.customer_id kv.2) ++ acc)
        [] d.

(** The register that [addItemToCart] and [checkoutCart] leave behind
    when they return. *)
Definition with_item (customer_id item_id : string) (r : Register.t)
    : Register.t :=
  let cart := default (Cart.init customer_id)
                      (PyDict.get customer_id (Register.customer_cart_map r)) in
  Register.set_carts (PyDict.set customer_id (Cart.addItem item_id cart)) r.

Definition without_cart (customer_id : string) (r : Register.t) : Register.t :=
  Register.set_carts (PyDict.del customer_id) r.

(** The sum over all registers of [getTotalItems()]. *)
Definition total_items (s : Store.t) : Z :=
  foldr (λ r acc, (Register.getTotalItems r + acc)%Z) 0%Z (Store.registers s).

(** A cart map as Python dictionaries are: one entry per key; and as
    [addItemToCart] builds them: a cart is filed under its own customer. *)
Definition carts_wf (d : list (string * Cart.t)) : Prop :=
  NoDup (PyDict.keys d) ∧ Forall (λ kv, Cart.customer_id kv.2 = kv.1) d.

(** The routing table and the cart maps agree: [register_map] leads
    [c] to [r] exactly when [r] holds a cart of [c]. *)
Definition routing_agrees (s : Store.t) : Prop :=
  ∀ c r, Store.register_map s !! c = Some r ↔ is_Some (cart_at c r s).

(** The state of a store that [__init__] built and the operations
    changed. *)
Record consistent (s : Store.t) : Prop := mkConsistent {
  cons_routing : routing_agrees s;
  cons_carts : Forall (λ r, carts_wf (Register.customer_cart_map r))
                      (Store.registers s);
  cons_ids : ∀ i r, Store.registers s !! i = Some r → Register.register_id r = i;
}.

(** What a call on behalf of [c] leaves alone: the pool keeps its size,
    at most the register [r] changes, and in it no cart but that of [c];
    no routing entry but that of [c] changes. *)
Record frame (c : string) (r : nat) (s s' : Store.t) : Prop := mkFrame {
  frame_size : length (Store.registers s') = length (Store.registers s);
  frame_registers :
    ∀ r', r' ≠ r → Store.registers s' !! r' = Store.registers s !! r';
  frame_carts : ∀ c' r', c' ≠ c → cart_at c' r' s' = cart_at c' r' s;
  frame_routing :
    ∀ c', c' ≠ c → Store.register_map s' !! c' = Store.register_map s !! c';
}.

(** A call that came to an end, by a return or by an exception, and the
    store it left. *)
Definition completes {A} (out : outcome Store.t A) (s' : Store.t) : Prop :=
  match out with
  | Returns _ s1 | Raises _ s1 => s1 = s'
  | Blocks => False
  end.

(** The customer on whose behalf a call is made. *)
Definition customer_of (o : op) : string :=
  match o with
  | AssignItem c _ => c
  | CheckoutCustomer c => c
  end.

(** The same for a method of a register. *)
Definition completes_in {A} (out : outcome Register.t A) (r' : Register.t) : Prop :=
  match out with
  | Returns _ r1 | Raises _ r1 => r1 = r'
  | Blocks => False
  end.

(** The mapping that the loop of [getAllRegisterState] builds over the
    registers [rs], starting from [state]. *)
Definition states_of (rs : list Register.t) (state : gmap nat (list string))
    : gmap nat (list string) :=
  foldl (λ state r, <[Register.register_id r := Register.getRegisterState r]> state)
        state rs.

(** ** Example stores *)

(** The scenario: a store of two registers, two items for [c1] and one
    for [c2]. *)
Definition scenario_ops : list op :=
  [AssignItem "c1" "apple"; AssignItem "c2" "banana"; AssignItem "c1" "pear"].

Definition scenario_store : Store.t :=
  Store.mk
    [Register.mk 0 [("c1", Cart.mk "c1" ["apple"; "pear"])] false;
     Register.mk 1 [("c2", Cart.mk "c2" ["banana"])] false]
    (<["c1" := 0]> (<["c2" := 1]> ∅)).

(** A store whose routing table leads [c1] to a register that holds no
    cart of [c1]: the state in which the removal at the register fails. *)
Definition stale_store : Store.t :=
  Store.mk [Register.init 0] (<["c1" := 0]> ∅).

(** The scenario with [c1] checked out. *)
Definition checked_out_store : Store.t :=
  Store.mk
    [Register.mk 0 [] false;
     Register.mk 1 [("c2", Cart.mk "c2" ["banana"])] false]
    (<["c2" := 1]> ∅).

(** ** Further vocabulary *)

(** No cart of the store is empty. *)
Definition carts_nonempty (s : Store.t) : Prop :=
  Forall (λ reg, Forall (λ kv : string * Cart.t, Cart.items kv.2 ≠ [])
                        (Register.customer_cart_map reg))
         (Store.registers s).

(** The totals of a pool of [n] registers that has received items in
    turn: the first [k] registers hold [q + 1] items, the others [q]. *)
Definition dealt (n q k : nat) : list Z :=
  replicate k (Z.of_nat (S q)) ++ replicate (n - k) (Z.of_nat q).

(** ** The HTTP adapter, [api.py]

    The view functions of the Flask application.  The module variable
    [store] is declared by an annotation alone and is bound by [reset]
    only: until then a view that reads it raises [NameError].  The fields
    of the request form are taken as the arguments of a view, and the
    body of a response is held as the value that [json.dumps] is given.
    An exception that leaves a view ends the request and not the
    process. *)

Inductive HTTPStatus : Type := OK | CREATED.

Record Response : Type := mkResponse {
  body : option (gmap nat (list string));   (* [{"registers": state}], or no body *)
  status : HTTPStatus;
}.

Inductive view_exn : Type :=
| NameError (name : string)     (* the module variable is not bound *)
| StoreError (e : exn).         (* an exception of [store.py] *)

(** What a view does: it returns a response, or an exception leaves it,
    or it never returns; with the module variable [store] as it is then. *)
Inductive reply : Type :=
| Responds (r : Response) (store : option Store.t)
| Fails (e : view_exn) (store : option Store.t)
| Hangs.

Module Api.
(** [health] *)
Definition health (store : option Store.t) : reply :=
  Responds (mkResponse None OK) store.

(** [reset] *)
Definition reset (store : option Store.t) : reply :=
  Responds (mkResponse None OK) (Some (Store.init 25)).

(** The last line of [add] and of [checkout]. *)
Definition registers_response (store : Store.t) : reply :=
  match Store.getAllRegisterState store with
  | Returns state store' => Responds (mkResponse (Some state) CREATED) (Some store')
  | Raises e store' => Fails (StoreError e) (Some store')
  | Blocks => Hangs
  end.

(** [add] *)
Definition add (customer_id item_id : string) (store : option Store.t) : reply :=
  match store with
  | None => Fails (NameError "store") None
  | Some store =>
      match Store.assignItem customer_id item_id store with
      | Returns _ store' => registers_response store'
      | Raises e store' => Fails (StoreError e) (Some store')
      | Blocks => Hangs
      end
  end.

(** [checkout] *)
Definition checkout (customer_id : string) (store : option Store.t) : reply :=
  match store with
  | None => Fails (NameError "store") None
  | Some store =>
      match Store.checkoutCustomer customer_id store with
      | Returns _ store' => registers_response store'
      | Raises e store' => Fails (StoreError e) (Some store')
      | Blocks => Hangs
      end
  end.
End Api.

(** The routes of the application. *)
Inductive request : Type :=
| GetHealth                                   (* [/health] *)
| DeleteState                                 (* [DELETE /state] *)
| PostAdd (customer_id item_id : string)      (* [POST /add] *)
| PostCheckout (customer_id : string).        (* [POST /checkout] *)

Global Instance request_eq_dec : EqDecision request.
Proof. solve_decision. Defined.

Definition dispatch (rq : request) : option Store.t → reply :=
  match rq with
  | GetHealth => Api.health
  | DeleteState => Api.reset
  | PostAdd customer_id item_id => Api.add customer_id item_id
  | PostCheckout customer_id => Api.checkout customer_id
  end.

(** Requests served one after the other: what each view returned or
    raised, and the module variable at the end; [None] when a view
    hangs. *)
Fixpoint serve (rqs : list request) (store : option Store.t)
    : option (list (Response + view_exn) * option Store.t) :=
  match rqs with
  | [] => Some ([], store)
  | rq :: rqs' =>
      match dispatch rq store with
      | Responds r store' =>
          match serve rqs' store' with
          | Some (rs, store'') => Some (inl r :: rs, store'')
          | None => None
          end
      | Fails e store' =>
          match serve rqs' store' with
          | Some (rs, store'') => Some (inr e :: rs, store'')
          | None => None
          end
      | Hangs => None
      end
  end.



(** * Properties *)

(** ** Dictionaries *)

Section PyDict_facts.
Context {K V : Type} `{EqDecision K}.
Implicit Types (k : K) (v : V) (d : list (K * V)).

Lemma get_set_eq k v d : PyDict.get k (PyDict.set k v d) = Some v.
Proof.
  induction d as [|[k' v'] d IH]; csimpl.
  - by rewrite decide_True.
  - destruct (decide (k = k')) as [->|Hne]; csimpl.
    + by rewrite decide_True.
    + by rewrite decide_False.
Qed.

Lemma get_set_ne k k' v d :
  k ≠ k' → PyDict.get k' (PyDict.set k v d) = PyDict.get k' d.
Proof.
  intros Hne. induction d as [|[k1 v1] d IH]; csimpl.
  - rewrite decide_False; [done | congruence].
  - destruct (decide (k = k1)) as [->|Hk]; csimpl.
    + rewrite !decide_False; [done | congruence | congruence].
    + destruct (decide (k' = k1)); [done | apply IH].
Qed.

Lemma get_del_ne k k' d :
  k ≠ k' → PyDict.get k' (PyDict.del k d) = PyDict.get k' d.
Proof.
  intros Hne. induction d as [|[k1 v1] d IH]; csimpl; [done|].
  destruct (decide (k = k1)) as [->|Hk]; csimpl.
  - rewrite decide_False; [done | congruence].
  - destruct (decide (k' = k1)); [done | apply IH].
Qed.

Lemma get_None_keys k d : PyDict.get k d = None ↔ k ∉ PyDict.keys d.
Proof.
  unfold PyDict.keys. induction d as [|[k1 v1] d IH]; csimpl.
  - split; [intros _; apply not_elem_of_nil | done].
  - rewrite not_elem_of_cons. destruct (decide (k = k1)) as [->|Hk].
    + split; [done | intros [? _]; done].
    + rewrite IH. tauto.
Qed.

Lemma get_Some_elem k v d : PyDict.get k d = Some v → (k, v) ∈ d.
Proof.
  induction d as [|[k1 v1] d IH]; csimpl; [done|].
  destruct (decide (k = k1)) as [->|Hk].
  - intros [= ->]. apply list_elem_of_here.
  - intros Hg. apply list_elem_of_further, IH, Hg.
Qed.

Lemma get_del_eq k d :
  NoDup (PyDict.keys d) → PyDict.get k (PyDict.del k d) = None.
Proof.
  unfold PyDict.keys. induction d as [|[k1 v1] d IH]; csimpl; [done|].
  intros [Hnotin Hnd]%NoDup_cons.
  destruct (decide (k = k1)) as [->|Hk]; csimpl.
  - by apply get_None_keys.
  - rewrite decide_False; [by apply IH | done].
Qed.

Lemma contains_true k d : PyDict.contains k d = true ↔ is_Some (PyDict.get k d).
Proof.
  unfold PyDict.contains. destruct (PyDict.get k d).
  - split; [eauto | done].
  - split; [done | intros [? ?]; done].
Qed.

Lemma keys_set k v d :
  PyDict.keys (PyDict.set k v d)
  = if PyDict.contains k d then PyDict.keys d else PyDict.keys d ++ [k].
Proof.
  unfold PyDict.keys, PyDict.contains.
  induction d as [|[k1 v1] d IH]; csimpl; [done|].
  destruct (decide (k = k1)) as [->|Hk]; csimpl; [done|].
  rewrite IH. by destruct (PyDict.get k d).
Qed.

Lemma keys_del_sub k d k' :
  k' ∈ PyDict.keys (PyDict.del k d) → k' ∈ PyDict.keys d.
Proof.
  unfold PyDict.keys. induction d as [|[k1 v1] d IH]; csimpl; [done|].
  destruct (decide (k = k1)) as [->|Hk]; csimpl.
  - apply list_elem_of_further.
  - rewrite !elem_of_cons. intros [->|Hin]; [by left | right; by apply IH].
Qed.

Lemma NoDup_keys_set k v d :
  NoDup (PyDict.keys d) → NoDup (PyDict.keys (PyDict.set k v d)).
Proof.
  intros Hnd. rewrite keys_set.
  destruct (PyDict.contains k d) eqn:Hc; [done|].
  apply NoDup_app. split_and!; [done | | apply NoDup_singleton].
  intros x Hx ->%list_elem_of_singleton.
  assert (PyDict.get k d = None) as Hg.
  { unfold PyDict.contains in Hc. by destruct (PyDict.get k d). }
  by apply get_None_keys in Hg.
Qed.

Lemma NoDup_keys_del k d :
  NoDup (PyDict.keys d) → NoDup (PyDict.keys (PyDict.del k d)).
Proof.
  unfold PyDict.keys. induction d as [|[k1 v1] d IH]; csimpl; [done|].
  intros [Hnotin Hnd]%NoDup_cons.
  destruct (decide (k = k1)) as [->|Hk]; csimpl; [done|].
  apply NoDup_cons. split; [|by apply IH].
  intros Hin. apply Hnotin. by apply (keys_del_sub k).
Qed.

Lemma elem_of_set k v d kv :
  kv ∈ PyDict.set k v d → kv = (k, v) ∨ kv ∈ d.
Proof.
  induction d as [|[k1 v1] d IH]; csimpl.
  - intros ->%list_elem_of_singleton. by left.
  - destruct (decide (k = k1)) as [->|Hk]; rewrite !elem_of_cons.
    + intros [->|Hin]; [by left | right; by right].
    + intros [->|Hin]; [right; by left|].
      destruct (IH Hin); [by left | right; by right].
Qed.

Lemma elem_of_del k d kv : kv ∈ PyDict.del k d → kv ∈ d.
Proof.
  induction d as [|[k1 v1] d IH]; csimpl; [done|].
  destruct (decide (k = k1)) as [->|Hk]; rewrite ?elem_of_cons.
  - by right.
  - intros [->|Hin]; [by left | right; by apply IH].
Qed.
End PyDict_facts.


(** ** Register *)

Lemma set_lock_id (r : Register.t) b : Register.lock r = b → Register.set_lock b r = r.
Proof. destruct r; simpl; by intros ->. Qed.

Lemma set_lock_set_lock b b' (r : Register.t) :
  Register.set_lock b (Register.set_lock b' r) = Register.set_lock b r.
Proof. done. Qed.

Lemma addItemToCart_spec c i (r : Register.t) :
  Register.addItemToCart c i r
  = if Register.lock r then Blocks else Returns () (with_item c i r).
Proof.
  destruct r as [id d [|]]; [done|].
  unfold Register.addItemToCart, with_item, bind, Register.lockRegister; simpl.
  by destruct (PyDict.get c d).
Qed.

Lemma checkoutCart_spec c (r : Register.t) :
  Register.checkoutCart c r
  = if Register.lock r then Blocks
    else if PyDict.contains c (Register.customer_cart_map r)
         then Returns () (without_cart c r)
         else Raises cart_missing (Register.set_lock true r).
Proof.
  destruct r as [id d [|]]; [done|].
  unfold Register.checkoutCart, without_cart, bind, Register.lockRegister; simpl.
  by destruct (PyDict.contains c d).
Qed.

Lemma foldl_add_size (a : Z) (carts : list Cart.t) :
  foldl (λ total_items cart, (total_items + Cart.size cart)%Z) a carts
  = (a + foldl (λ total_items cart, (total_items + Cart.size cart)%Z) 0%Z carts)%Z.
Proof.
  revert a. induction carts as [|c carts IH]; intros a; simpl; [lia|].
  rewrite (IH (a + _)%Z), (IH (0 + _)%Z). lia.
Qed.

Lemma getTotalItems_sum (r : Register.t) :
  Register.getTotalItems r = items_of_carts (Register.customer_cart_map r).
Proof.
  unfold Register.getTotalItems, PyDict.values.
  induction (Register.customer_cart_map r) as [|[k v] d IH]; csimpl; [done|].
  rewrite foldl_add_size, IH. lia.
Qed.

Lemma foldl_app_owners (acc : list string) (carts : list Cart.t) :
  foldl (λ register_state cart,
           register_state
             ++ replicate (Z.to_nat (Cart.size cart)) (Cart.customer_id cart))
        acc carts
  = acc ++ foldl (λ register_state cart,
                    register_state
                      ++ replicate (Z.to_nat (Cart.size cart)) (Cart.customer_id cart))
                 [] carts.
Proof.
  revert acc. induction carts as [|c carts IH]; intros acc; simpl.
  - by rewrite app_nil_r.
  - rewrite (IH (acc ++ _)), (IH (replicate _ _)). by rewrite app_assoc.
Qed.

Lemma getRegisterState_owners (r : Register.t) :
  Register.getRegisterState r = owners_of_carts (Register.customer_cart_map r).
Proof.
  unfold Register.getRegisterState, PyDict.values.
  induction (Register.customer_cart_map r) as [|[k v] d IH]; csimpl; [done|].
  rewrite foldl_app_owners, IH. unfold Cart.size. by rewrite Nat2Z.id.
Qed.

Lemma items_of_carts_nonneg d : (0 ≤ items_of_carts d)%Z.
Proof. induction d as [|[k v] d IH]; simpl; unfold Cart.size in *; lia. Qed.

Lemma items_of_carts_set c v d :
  items_of_carts (PyDict.set c v d)
  = (items_of_carts d - from_option Cart.size 0 (PyDict.get c d) + Cart.size v)%Z.
Proof.
  induction d as [|[k1 v1] d IH]; simpl; [lia|].
  destruct (decide (c = k1)) as [->|Hne]; simpl; [lia|].
  rewrite IH. lia.
Qed.

Lemma items_of_carts_del c d :
  items_of_carts (PyDict.del c d)
  = (items_of_carts d - from_option Cart.size 0 (PyDict.get c d))%Z.
Proof.
  induction d as [|[k1 v1] d IH]; simpl; [lia|].
  destruct (decide (c = k1)) as [->|Hne]; simpl; [lia|].
  rewrite IH. lia.
Qed.

Lemma getTotalItems_with_item c i (r : Register.t) :
  Register.getTotalItems (with_item c i r) = (Register.getTotalItems r + 1)%Z.
Proof.
  rewrite !getTotalItems_sum. unfold with_item; simpl.
  rewrite items_of_carts_set.
  destruct (PyDict.get c (Register.customer_cart_map r)) as [cart|]; simpl;
    unfold Cart.size, Cart.addItem; simpl; rewrite ?length_app; simpl; lia.
Qed.

Lemma getTotalItems_without_cart c (r : Register.t) :
  Register.getTotalItems (without_cart c r)
  = (Register.getTotalItems r
     - from_option Cart.size 0 (PyDict.get c (Register.customer_cart_map r)))%Z.
Proof. rewrite !getTotalItems_sum. apply items_of_carts_del. Qed.

Lemma getTotalItems_set_lock b (r : Register.t) :
  Register.getTotalItems (Register.set_lock b r) = Register.getTotalItems r.
Proof. done. Qed.

(** ** Locking and unlocking the pool *)

Lemma set_registers_id (s : Store.t) f :
  f (Store.registers s) = Store.registers s → Store.set_registers f s = s.
Proof. destruct s; unfold Store.set_registers; simpl. by intros ->. Qed.

Lemma on_register_query {A} (f : Register.t → A) i r (s : Store.t) :
  Store.registers s !! i = Some r →
  Store.on_register i (query f) s = Returns (f r) s.
Proof.
  intros Hi. unfold Store.on_register, query. rewrite Hi.
  f_equal. apply set_registers_id. by apply list_insert_id.
Qed.

Lemma insert_middle {A} (pre rs : list A) (x y : A) :
  <[length pre := y]> (pre ++ x :: rs) = pre ++ y :: rs.
Proof. rewrite <- (Nat.add_0_r (length pre)). by rewrite insert_app_r. Qed.

(** A sweep over the registers [rs] that follow [pre] in the pool, by a
    method that returns on each of them. *)
Lemma for_each_sweep (m : M Register.t unit) (f : Register.t → Register.t)
    (pre rs : list Register.t) (rm : gmap string nat) :
  Forall (λ r, m r = Returns () (f r)) rs →
  for_each (seq (length pre) (length rs)) (λ i, Store.on_register i m)
           (Store.mk (pre ++ rs) rm)
  = Returns () (Store.mk (pre ++ (f <$> rs)) rm).
Proof.
  revert pre. induction rs as [|r rs IH]; intros pre Hall; csimpl; [done|].
  apply Forall_cons in Hall as [Hr Hall].
  unfold bind, Store.on_register at 1; simpl.
  rewrite list_lookup_middle by done. rewrite Hr.
  unfold Store.set_registers; simpl.
  rewrite insert_middle.
  rewrite (cons_middle (f r) pre rs), app_assoc.
  replace (S (length pre)) with (length (pre ++ [f r]))
    by (rewrite length_app; simpl; lia).
  rewrite IH by done.
  by rewrite <- app_assoc.
Qed.

(** [lockRegisters] stops at the first lock that is held. *)
Lemma for_each_lock_blocks (pre rs : list Register.t) (rm : gmap string nat) :
  Exists (λ r, Register.lock r = true) rs →
  for_each (seq (length pre) (length rs))
           (λ i, Store.on_register i Register.lockRegister)
           (Store.mk (pre ++ rs) rm)
  = Blocks.
Proof.
  revert pre. induction rs as [|r rs IH]; intros pre Hex; csimpl.
  - by apply Exists_nil in Hex.
  - unfold bind, Store.on_register at 1; simpl.
    rewrite list_lookup_middle by done.
    unfold Register.lockRegister at 1.
    destruct (Register.lock r) eqn:Hl; [done|].
    apply Exists_cons in Hex as [Hr|Hex]; [congruence|].
    unfold Store.set_registers; simpl.
    rewrite insert_middle.
    rewrite (cons_middle _ pre rs), app_assoc.
    replace (S (length pre)) with (length (pre ++ [Register.set_lock true r]))
      by (rewrite length_app; simpl; lia).
    by apply IH.
Qed.

Lemma lockRegisters_spec (s : Store.t) :
  Store.lockRegisters s
  = if decide (locks_free s) then Returns () (lock_all s) else Blocks.
Proof.
  destruct s as [rs rm]. unfold Store.lockRegisters, bind, get, Store.pool; simpl.
  destruct (decide (locks_free _)) as [Hfree|Hheld]; unfold locks_free in *; simpl in *.
  - apply (for_each_sweep _ (Register.set_lock true) [] rs rm).
    eapply Forall_impl; [exact Hfree|]. intros r Hr; simpl.
    unfold Register.lockRegister. by rewrite Hr.
  - apply (for_each_lock_blocks [] rs rm).
    apply not_Forall_Exists in Hheld; [|apply _].
    eapply Exists_impl; [exact Hheld|]. intros r Hr; simpl in *.
    by destruct (Register.lock r).
Qed.

Lemma unlockRegisters_lock_all (s : Store.t) :
  locks_free s → Store.unlockRegisters (lock_all s) = Returns () s.
Proof.
  destruct s as [rs rm]. unfold locks_free, lock_all, Store.set_registers; simpl.
  intros Hfree. unfold Store.unlockRegisters, bind, get, Store.pool; simpl.
  pose proof (for_each_sweep Register.unlockRegister (Register.set_lock false) []
                (Register.set_lock true <$> rs) rm) as Hsweep.
  simpl in Hsweep. rewrite Hsweep.
  - f_equal. f_equal. rewrite <- list_fmap_compose.
    rewrite <- (list_fmap_id rs) at 2. apply list_fmap_ext.
    intros i r Hr; simpl. rewrite set_lock_set_lock. apply set_lock_id.
    by eapply (Forall_lookup_1 _ _ _ _ Hfree).
  - apply Forall_fmap, Forall_true. by intros r.
Qed.

Lemma totals_lock_all (s : Store.t) : totals (lock_all s) = totals s.
Proof.
  unfold totals, lock_all, Store.set_registers; simpl.
  rewrite <- list_fmap_compose. by apply list_fmap_ext.
Qed.

Lemma pool_lock_all (s : Store.t) : Store.pool (lock_all s) = Store.pool s.
Proof. unfold Store.pool, lock_all; simpl. by rewrite length_fmap. Qed.

Lemma length_totals (s : Store.t) : length (totals s) = length (Store.registers s).
Proof. unfold totals. apply length_fmap. Qed.

(** ** The least-utilized scan *)

(** The loop reads the totals and chooses as [select] does. *)
Lemma least_utilized_loop_select (s : Store.t) (seen ts : list Z) li lo :
  totals s = seen ++ ts →
  Store.least_utilized_loop (seq (length seen) (length ts)) li lo s
  = match select ts (length seen) li lo with
    | Some register => (Store.unlockRegisters ;; ret register) s
    | None => Raises invalid_register_state s
    end.
Proof.
  revert seen li lo. induction ts as [|t ts IH]; intros seen li lo Hs; csimpl.
  - by destruct lo.
  - assert (∃ r, Store.registers s !! length seen = Some r
                 ∧ Register.getTotalItems r = t) as (r & Hr & Ht).
    { assert (totals s !! length seen = Some t) as Hlook
        by (rewrite Hs; by apply list_lookup_middle).
      apply list_lookup_fmap_Some_1 in Hlook as (r & -> & Hr). by exists r. }
    unfold bind at 1. rewrite (on_register_query _ _ r) by done. rewrite Ht.
    destruct (t =? 0)%Z; [done|].
    replace (S (length seen)) with (length (seen ++ [t]))
      by (rewrite length_app; simpl; lia).
    destruct (li >? t)%Z; apply IH; by rewrite <- app_assoc.
Qed.

Lemma select_range ts k li lo i :
  select ts k li lo = Some i → lo = Some i ∨ k ≤ i < k + length ts.
Proof.
  revert k li lo. induction ts as [|t ts IH]; intros k li lo; simpl; [by left|].
  destruct (t =? 0)%Z; [intros [= <-]; right; lia|].
  destruct (li >? t)%Z; intros [Hlo| Hi]%IH; try (right; lia).
  - injection Hlo as <-. right; lia.
  - by left.
Qed.

(** [select] keeps what the scan has established, up to the end of the
    pool. *)
Lemma select_scanned (seen ts : list Z) li lo :
  scanned seen li lo →
  match select ts (length seen) li lo with
  | Some i =>
      (0%Z ∈ seen ++ ts → first_empty (seen ++ ts) i)
      ∧ (0%Z ∉ seen ++ ts → first_least (seen ++ ts) i)
  | None => lo = None ∧ Forall (λ t, (li ≤ t)%Z) (seen ++ ts)
  end.
Proof.
  revert seen li lo. induction ts as [|t ts IH]; intros seen li lo [Hnz Hlo]; simpl.
  - rewrite app_nil_r. destruct lo as [i|]; [|done].
    destruct Hlo as (Hi & Hmin & Hbefore). split.
    + intros Hin. rewrite Forall_forall in Hnz. by apply Hnz in Hin.
    + intros _. by exists li.
  - destruct (Z.eqb_spec t 0) as [->|Ht].
    { split.
      - intros _. split; [by apply list_lookup_middle|].
        by rewrite take_app_length.
      - intros []. apply elem_of_app. right. apply list_elem_of_here. }
    replace (S (length seen)) with (length (seen ++ [t]))
      by (rewrite length_app; simpl; lia).
    rewrite (cons_middle t seen ts), app_assoc.
    destruct (Z.gtb_spec li t) as [Hgt|Hle].
    + assert (scanned (seen ++ [t]) t (Some (length seen))) as Hsc.
      { split; [apply Forall_app; split; [done | by apply Forall_singleton]|].
        split_and!.
        * by apply list_lookup_middle.
        * apply Forall_app. split; [|apply Forall_singleton; lia].
          destruct lo as [i|]; [destruct Hlo as (_ & Hmin & _)|];
            (eapply Forall_impl; [eassumption|]); intros; simpl in *; lia.
        * rewrite take_app_length.
          destruct lo as [i|]; [destruct Hlo as (_ & Hmin & _)|];
            (eapply Forall_impl; [eassumption|]); intros; simpl in *; lia. }
      apply IH in Hsc. destruct (select _ _ _ _); [done | by destruct Hsc].
    + apply IH.
      split; [apply Forall_app; split; [done | by apply Forall_singleton]|].
      destruct lo as [i|].
      * destruct Hlo as (Hi & Hmin & Hbefore).
        assert (i < length seen) by (by eapply lookup_lt_Some).
        split_and!.
        -- by apply lookup_app_l_Some.
        -- apply Forall_app. split; [done | apply Forall_singleton; lia].
        -- rewrite take_app_le by lia. done.
      * apply Forall_app. split; [done | apply Forall_singleton; lia].
Qed.

(** The choice of the scan over the totals of a pool. *)
Lemma select_spec (ts : list Z) :
  match select ts 0 sys_maxsize None with
  | Some i =>
      i < length ts
      ∧ (0%Z ∈ ts → first_empty ts i)
      ∧ (0%Z ∉ ts → first_least ts i)
  | None => Forall (λ t, (sys_maxsize ≤ t)%Z) ts
  end.
Proof.
  pose proof (select_scanned [] ts sys_maxsize None) as Hsel. simpl in Hsel.
  destruct (select ts 0 sys_maxsize None) as [i|] eqn:Hi.
  - split; [|apply Hsel; by split].
    apply select_range in Hi as [?|?]; [done | lia].
  - apply Hsel. by split.
Qed.

Lemma select_Some (ts : list Z) :
  ts ≠ [] → Forall (λ t, (t < sys_maxsize)%Z) ts →
  ∃ i, select ts 0 sys_maxsize None = Some i.
Proof.
  intros Hne Hrep. pose proof (select_spec ts) as Hsel.
  destruct (select ts 0 sys_maxsize None) as [i|]; [by exists i|].
  destruct ts as [|t ts]; [done|].
  apply Forall_cons in Hsel as [? _]. apply Forall_cons in Hrep as [? _]. lia.
Qed.

(** Why the totals must fit: totals that all reach [sys.maxsize] are
    never below [lowest_items], and no register is selected. *)
Lemma select_saturated (ts : list Z) k :
  Forall (λ t, (sys_maxsize ≤ t)%Z) ts → select ts k sys_maxsize None = None.
Proof.
  revert k. induction ts as [|t ts IH]; intros k; simpl; [done|].
  intros [Ht Hts]%Forall_cons.
  destruct (Z.eqb_spec t 0) as [->|_]; [done|].
  destruct (Z.gtb_spec sys_maxsize t); [lia | by apply IH].
Qed.

(** [getLeastUtilizedRegister], on a pool whose locks are free and on
    one with a lock held. *)
Lemma getLeastUtilizedRegister_spec (s : Store.t) :
  Store.getLeastUtilizedRegister s
  = if decide (locks_free s) then
      match select (totals s) 0 sys_maxsize None with
      | Some register => Returns register s
      | None => Raises invalid_register_state (lock_all s)
      end
    else Blocks.
Proof.
  unfold Store.getLeastUtilizedRegister, bind at 1.
  rewrite lockRegisters_spec.
  destruct (decide (locks_free s)) as [Hfree|]; [|done].
  unfold bind, get. rewrite pool_lock_all. unfold Store.pool.
  rewrite <- length_totals.
  pose proof (least_utilized_loop_select (lock_all s) [] (totals s)
                sys_maxsize None) as Hloop.
  simpl in Hloop. rewrite Hloop by apply totals_lock_all.
  destruct (select _ _ _ _) as [register|]; [|done].
  unfold bind. by rewrite unlockRegisters_lock_all.
Qed.

Lemma lock_all_empty (s : Store.t) : Store.registers s = [] → lock_all s = s.
Proof. intros Hs. apply set_registers_id. by rewrite Hs. Qed.

Lemma representable_totals (s : Store.t) :
  representable s → Forall (λ t, (t < sys_maxsize)%Z) (totals s).
Proof. intros Hrep. unfold totals. by apply Forall_fmap. Qed.

Lemma totals_nonempty (s : Store.t) : Store.registers s ≠ [] → totals s ≠ [].
Proof. unfold totals. by destruct (Store.registers s). Qed.

(** ** What a call does, case by case *)

Lemma assignItem_spec c i (s : Store.t) :
  Store.assignItem c i s
  = match Store.register_map s !! c with
    | Some register =>
        match Store.registers s !! register with
        | Some r =>
            if Register.lock r then Blocks
            else Returns () (Store.set_registers <[register := with_item c i r]> s)
        | None => Raises WildReference s
        end
    | None =>
        if decide (locks_free s) then
          match select (totals s) 0 sys_maxsize None with
          | Some register =>
              match Store.registers s !! register with
              | Some r =>
                  Returns () (Store.set_register_map <[c := register]>
                                (Store.set_registers <[register := with_item c i r]> s))
              | None => Raises WildReference s
              end
          | None => Raises invalid_register_state (lock_all s)
          end
        else Blocks
    end.
Proof.
  unfold Store.assignItem, bind at 1, get.
  destruct (Store.register_map s !! c) as [register|].
  - unfold Store.on_register.
    destruct (Store.registers s !! register) as [r|]; [|done].
    rewrite addItemToCart_spec. by destruct (Register.lock r).
  - unfold bind at 1. rewrite getLeastUtilizedRegister_spec.
    destruct (decide (locks_free s)) as [Hfree|]; [|done].
    destruct (select _ _ _ _) as [register|]; [|done].
    unfold bind, Store.on_register.
    destruct (Store.registers s !! register) as [r|] eqn:Hr; [|done].
    rewrite addItemToCart_spec.
    by rewrite (Forall_lookup_1 _ _ _ _ Hfree Hr).
Qed.

Lemma checkoutCustomer_spec c (s : Store.t) :
  Store.checkoutCustomer c s
  = match Store.register_map s !! c with
    | Some register =>
        match Store.registers s !! register with
        | Some r =>
            if Register.lock r then Blocks
            else if PyDict.contains c (Register.customer_cart_map r) then
              Returns () (Store.set_register_map (delete c)
                            (Store.set_registers <[register := without_cart c r]> s))
            else
              Raises cart_missing
                     (Store.set_registers <[register := Register.set_lock true r]> s)
        | None => Raises WildReference s
        end
    | None => Raises no_cart s
    end.
Proof.
  unfold Store.checkoutCustomer, bind at 1, get.
  destruct (Store.register_map s !! c) as [register|]; [|done].
  unfold bind, Store.on_register.
  destruct (Store.registers s !! register) as [r|]; [|done].
  rewrite checkoutCart_spec. destruct (Register.lock r); [done|].
  by destruct (PyDict.contains c _).
Qed.

(** ** The scenario *)

Lemma scenario_run :
  run scenario_ops (Store.init 2) tally0 = Some (scenario_store, mkTally 3 0).
Proof. vm_compute. reflexivity. Qed.

Lemma scenario_free : locks_free scenario_store.
Proof. repeat constructor. Qed.

Lemma scenario_representable : representable scenario_store.
Proof. repeat constructor. Qed.

(** ** The least-utilized register *)

(** C1.  On a store with a non-empty pool, called with no lock held and
    with totals that fit a container, [getLeastUtilizedRegister] returns
    a register of the pool and leaves the store as it was.  When some
    register holds no item, the register returned is the first of them in
    pool order.  When none is empty, the register returned holds the least
    total, and every register before it holds strictly more: a later
    register with the same total does not replace it.  On a consistent
    store the position in the pool is the [register_id]. *)
Theorem getLeastUtilizedRegister_choice (s : Store.t) :
  Store.registers s ≠ [] → locks_free s → representable s →
  ∃ register r,
    Store.getLeastUtilizedRegister s = Returns register s
    ∧ Store.registers s !! register = Some r
    ∧ (0%Z ∈ totals s →
       Register.getTotalItems r = 0%Z ∧ first_empty (totals s) register)
    ∧ (0%Z ∉ totals s → first_least (totals s) register)
    ∧ (consistent s → Register.register_id r = register).
Proof.
  intros Hne Hfree Hrep.
  rewrite getLeastUtilizedRegister_spec, decide_True by done.
  destruct (select_Some (totals s)) as [register Hsel];
    [by apply totals_nonempty | by apply representable_totals |].
  pose proof (select_spec (totals s)) as Hspec. rewrite Hsel in Hspec |- *.
  destruct Hspec as (Hlt & Hempty & Hleast).
  rewrite length_totals in Hlt.
  destruct (lookup_lt_is_Some_2 _ _ Hlt) as [r Hr].
  exists register, r. split_and!; [done | done | | done |].
  - intros Hin. split; [|by apply Hempty].
    destruct (Hempty Hin) as [Hz _]. unfold totals in Hz.
    rewrite list_lookup_fmap, Hr in Hz. by injection Hz.
  - intros Hcons. by apply (cons_ids s Hcons).
Qed.

Lemma getLeastUtilizedRegister_choice_witness :
  ∃ r, Store.getLeastUtilizedRegister scenario_store = Returns 1 scenario_store
       ∧ Store.registers scenario_store !! 1 = Some r
       ∧ first_least (totals scenario_store) 1.
Proof.
  destruct (getLeastUtilizedRegister_choice scenario_store)
    as (register & r & Hret & Hr & _ & Hleast & _).
  - done.
  - apply scenario_free.
  - apply scenario_representable.
  - assert (register = 1) as -> by (vm_compute in Hret; congruence).
    exists r. split_and!; [done | done |].
    apply Hleast. vm_compute.
    intros [Hin|Hin]%elem_of_cons; [done|].
    apply elem_of_cons in Hin as [Hin|Hin]; [done|]. by apply elem_of_nil in Hin.
Defined.

(** C6.  On a store with a non-empty pool whose totals fit a container,
    [getLeastUtilizedRegister] raises nothing: it does not reach its
    [raise Exception("Invalid register state")].  Called with no lock
    held, it returns a register of the pool. *)
Theorem getLeastUtilizedRegister_selects (s : Store.t) :
  Store.registers s ≠ [] → representable s →
  (∀ e s', Store.getLeastUtilizedRegister s ≠ Raises e s')
  ∧ (locks_free s →
     ∃ register, Store.getLeastUtilizedRegister s = Returns register s
                 ∧ register < length (Store.registers s)).
Proof.
  intros Hne Hrep. rewrite getLeastUtilizedRegister_spec.
  destruct (select_Some (totals s)) as [register Hsel];
    [by apply totals_nonempty | by apply representable_totals |].
  pose proof (select_spec (totals s)) as Hspec. rewrite Hsel in Hspec |- *.
  destruct Hspec as (Hlt & _). rewrite length_totals in Hlt.
  split.
  - intros e s'. by destruct (decide (locks_free s)).
  - intros Hfree. rewrite decide_True by done. by exists register.
Qed.

Lemma getLeastUtilizedRegister_selects_witness :
  ∃ register,
    Store.getLeastUtilizedRegister scenario_store = Returns register scenario_store
    ∧ register < length (Store.registers scenario_store).
Proof.
  apply (getLeastUtilizedRegister_selects scenario_store).
  - done.
  - apply scenario_representable.
  - apply scenario_free.
Defined.

(** C9.  A store without registers: [getLeastUtilizedRegister] raises
    [Exception("Invalid register state")], and so does [assignItem] for a
    customer that the routing table does not know; the store is left as
    it was. *)
Theorem empty_pool_invalid_register_state (s : Store.t) :
  Store.registers s = [] →
  Store.getLeastUtilizedRegister s = Raises invalid_register_state s
  ∧ ∀ c i, Store.register_map s !! c = None →
           Store.assignItem c i s = Raises invalid_register_state s.
Proof.
  intros Hs.
  assert (locks_free s) as Hfree by (unfold locks_free; rewrite Hs; constructor).
  assert (totals s = []) as Ht by (unfold totals; by rewrite Hs).
  split.
  - rewrite getLeastUtilizedRegister_spec, decide_True, Ht by done; simpl.
    by rewrite lock_all_empty.
  - intros c i Hc.
    rewrite assignItem_spec, Hc, decide_True, Ht by done; simpl.
    by rewrite lock_all_empty.
Qed.

Lemma empty_pool_invalid_register_state_witness :
  Store.getLeastUtilizedRegister (Store.init 0)
  = Raises invalid_register_state (Store.init 0)
  ∧ Store.assignItem "c1" "apple" (Store.init 0)
    = Raises invalid_register_state (Store.init 0).
Proof.
  destruct (empty_pool_invalid_register_state (Store.init 0)) as [Hscan Hassign].
  - reflexivity.
  - split; [exact Hscan | apply Hassign; reflexivity].
Defined.

(** ** Consistency of the routing table and the cart maps *)

Lemma cart_at_insert c r r' reg' (s : Store.t) :
  r < length (Store.registers s) →
  cart_at c r' (Store.set_registers <[r := reg']> s)
  = if decide (r' = r) then PyDict.get c (Register.customer_cart_map reg')
    else cart_at c r' s.
Proof.
  intros Hr. unfold cart_at; simpl. destruct (decide (r' = r)) as [->|Hne].
  - by rewrite list_lookup_insert_eq.
  - by rewrite list_lookup_insert_ne.
Qed.

Lemma cart_at_Some_lookup c r reg (s : Store.t) :
  Store.registers s !! r = Some reg →
  cart_at c r s = PyDict.get c (Register.customer_cart_map reg).
Proof. intros Hr. unfold cart_at. by rewrite Hr. Qed.

Lemma carts_wf_with_item c i (reg : Register.t) :
  carts_wf (Register.customer_cart_map reg) →
  carts_wf (Register.customer_cart_map (with_item c i reg)).
Proof.
  intros [Hnd Hown]. unfold with_item; simpl. split.
  - by apply NoDup_keys_set.
  - rewrite Forall_forall in Hown |- *. intros kv [->|Hin]%elem_of_set; [|by apply Hown].
    simpl. destruct (PyDict.get c _) as [cart|] eqn:Hget; [|done].
    simpl. by apply get_Some_elem, Hown in Hget.
Qed.

Lemma carts_wf_without_cart c (reg : Register.t) :
  carts_wf (Register.customer_cart_map reg) →
  carts_wf (Register.customer_cart_map (without_cart c reg)).
Proof.
  intros [Hnd Hown]. unfold without_cart; simpl. split.
  - by apply NoDup_keys_del.
  - rewrite Forall_forall in Hown |- *. intros kv Hin%elem_of_del. by apply Hown.
Qed.

Lemma consistent_init n : consistent (Store.init n).
Proof.
  split; unfold Store.init; simpl.
  - intros c r. unfold cart_at; simpl. rewrite lookup_empty, list_lookup_fmap.
    destruct (seq 0 (Z.to_nat n) !! r); simpl; split; (intros [? ?] || intros ?); done.
  - apply Forall_fmap, Forall_true. intros i. split; [constructor | constructor].
  - intros i r [j [-> [-> _]%lookup_seq]]%list_lookup_fmap_Some_1. done.
Qed.

(** A change of locks touches neither the carts nor the routing. *)
Lemma consistent_same_carts (s s' : Store.t) :
  Store.register_map s' = Store.register_map s →
  Register.set_lock false <$> Store.registers s'
  = Register.set_lock false <$> Store.registers s →
  consistent s → consistent s'.
Proof.
  intros Hmap Hregs [Hroute Hcarts Hids].
  assert (∀ i r', Store.registers s' !! i = Some r' →
            ∃ r, Store.registers s !! i = Some r
                 ∧ Register.customer_cart_map r' = Register.customer_cart_map r
                 ∧ Register.register_id r' = Register.register_id r) as Hsame.
  { intros i r' Hi.
    assert ((Register.set_lock false <$> Store.registers s) !! i
            = Some (Register.set_lock false r')) as Hl
      by (by rewrite <- Hregs, list_lookup_fmap, Hi).
    apply list_lookup_fmap_Some_1 in Hl as (r & Heq & Hr).
    exists r. split; [done|]. by injection Heq as -> ->. }
  assert (∀ c i, cart_at c i s' = cart_at c i s) as Hcart.
  { intros c i. unfold cart_at.
    destruct (Store.registers s' !! i) as [r'|] eqn:Hi.
    - destruct (Hsame _ _ Hi) as (r & -> & -> & _). done.
    - assert (Store.registers s !! i = None) as ->; [|done].
      apply lookup_ge_None. apply lookup_ge_None in Hi.
      apply (f_equal length) in Hregs. rewrite !length_fmap in Hregs. lia. }
  split.
  - intros c r. rewrite Hmap, Hcart. apply Hroute.
  - apply Forall_lookup. intros i r' Hi.
    destruct (Hsame _ _ Hi) as (r & Hr & -> & _).
    by apply (Forall_lookup_1 _ _ _ _ Hcarts Hr).
  - intros i r' Hi. destruct (Hsame _ _ Hi) as (r & Hr & _ & ->). by apply Hids.
Qed.

Lemma consistent_routed c i r reg (s : Store.t) :
  consistent s →
  Store.register_map s !! c = Some r → Store.registers s !! r = Some reg →
  consistent (Store.set_registers <[r := with_item c i reg]> s).
Proof.
  intros [Hroute Hcarts Hids] Hc Hr.
  assert (r < length (Store.registers s)) as Hlt by (by eapply lookup_lt_Some).
  split.
  - intros c' r'. rewrite cart_at_insert by done. simpl.
    destruct (decide (r' = r)) as [->|Hne]; [|apply Hroute].
    destruct (decide (c' = c)) as [->|Hcne].
    + unfold with_item; simpl. rewrite get_set_eq. split; [eauto | done].
    + unfold with_item; simpl. rewrite get_set_ne by done.
      rewrite <- (cart_at_Some_lookup c' r reg s) by done. apply Hroute.
  - simpl. apply Forall_insert; [done|].
    apply carts_wf_with_item. by apply (Forall_lookup_1 _ _ _ _ Hcarts Hr).
  - simpl. intros j r' Hj. destruct (decide (j = r)) as [->|Hne].
    + rewrite list_lookup_insert_eq in Hj by done. injection Hj as <-.
      simpl. by apply Hids.
    + rewrite list_lookup_insert_ne in Hj by done. by apply Hids.
Qed.

Lemma consistent_placed c i r reg (s : Store.t) :
  consistent s →
  Store.register_map s !! c = None → Store.registers s !! r = Some reg →
  consistent (Store.set_register_map <[c := r]>
                (Store.set_registers <[r := with_item c i reg]> s)).
Proof.
  intros [Hroute Hcarts Hids] Hc Hr.
  assert (r < length (Store.registers s)) as Hlt by (by eapply lookup_lt_Some).
  split.
  - intros c' r'.
    change (cart_at c' r' (Store.set_register_map _ ?s0)) with (cart_at c' r' s0).
    rewrite cart_at_insert by done. simpl.
    destruct (decide (c' = c)) as [->|Hcne].
    + rewrite lookup_insert_eq. destruct (decide (r' = r)) as [->|Hne].
      * unfold with_item; simpl. rewrite get_set_eq. split; [eauto | done].
      * split; [congruence|]. intros Hsome%Hroute. congruence.
    + rewrite lookup_insert_ne by done.
      destruct (decide (r' = r)) as [->|Hne]; [|apply Hroute].
      unfold with_item; simpl. rewrite get_set_ne by done.
      rewrite <- (cart_at_Some_lookup c' r reg s) by done. apply Hroute.
  - simpl. apply Forall_insert; [done|].
    apply carts_wf_with_item. by apply (Forall_lookup_1 _ _ _ _ Hcarts Hr).
  - simpl. intros j r' Hj. destruct (decide (j = r)) as [->|Hne].
    + rewrite list_lookup_insert_eq in Hj by done. injection Hj as <-.
      simpl. by apply Hids.
    + rewrite list_lookup_insert_ne in Hj by done. by apply Hids.
Qed.

Lemma consistent_checked_out c r reg (s : Store.t) :
  consistent s →
  Store.register_map s !! c = Some r → Store.registers s !! r = Some reg →
  consistent (Store.set_register_map (delete c)
                (Store.set_registers <[r := without_cart c reg]> s)).
Proof.
  intros [Hroute Hcarts Hids] Hc Hr.
  assert (r < length (Store.registers s)) as Hlt by (by eapply lookup_lt_Some).
  pose proof (Forall_lookup_1 _ _ _ _ Hcarts Hr) as Hwf.
  split.
  - intros c' r'.
    change (cart_at c' r' (Store.set_register_map _ ?s0)) with (cart_at c' r' s0).
    rewrite cart_at_insert by done. simpl.
    destruct (decide (c' = c)) as [->|Hcne].
    + rewrite lookup_delete_eq. split; [done|].
      destruct (decide (r' = r)) as [->|Hne].
      * unfold without_cart; simpl. rewrite get_del_eq by apply Hwf.
        by intros [? ?].
      * intros Hsome%Hroute. congruence.
    + rewrite lookup_delete_ne by done.
      destruct (decide (r' = r)) as [->|Hne]; [|apply Hroute].
      unfold without_cart; simpl. rewrite get_del_ne by done.
      rewrite <- (cart_at_Some_lookup c' r reg s) by done. apply Hroute.
  - simpl. apply Forall_insert; [done|]. by apply carts_wf_without_cart.
  - simpl. intros j r' Hj. destruct (decide (j = r)) as [->|Hne].
    + rewrite list_lookup_insert_eq in Hj by done. injection Hj as <-.
      simpl. by apply Hids.
    + rewrite list_lookup_insert_ne in Hj by done. by apply Hids.
Qed.

Lemma same_carts_lock_all (s : Store.t) :
  Register.set_lock false <$> Store.registers (lock_all s)
  = Register.set_lock false <$> Store.registers s.
Proof. unfold lock_all; simpl. rewrite <- list_fmap_compose. by apply list_fmap_ext. Qed.

Lemma same_carts_set_lock b r reg (s : Store.t) :
  Store.registers s !! r = Some reg →
  Register.set_lock false
    <$> Store.registers (Store.set_registers <[r := Register.set_lock b reg]> s)
  = Register.set_lock false <$> Store.registers s.
Proof.
  intros Hr; simpl. rewrite list_fmap_insert, set_lock_set_lock.
  apply list_insert_id. by rewrite list_lookup_fmap, Hr.
Qed.

(** Every call that comes to an end keeps the store consistent. *)
Lemma consistent_call o (s s' : Store.t) :
  consistent s → completes (call o s) s' → consistent s'.
Proof.
  intros Hcons. destruct o as [c i|c]; simpl.
  - rewrite assignItem_spec.
    destruct (Store.register_map s !! c) as [r|] eqn:Hc.
    + destruct (Store.registers s !! r) as [reg|] eqn:Hr; simpl; [|by intros <-].
      destruct (Register.lock reg); simpl; [done|]. intros <-.
      by apply consistent_routed.
    + destruct (decide (locks_free s)); simpl; [|done].
      destruct (select _ _ _ _) as [r|]; simpl.
      * destruct (Store.registers s !! r) as [reg|] eqn:Hr; simpl; intros <-; [|done].
        by apply consistent_placed.
      * intros <-. apply (consistent_same_carts s); [done | apply same_carts_lock_all | done].
  - rewrite checkoutCustomer_spec.
    destruct (Store.register_map s !! c) as [r|] eqn:Hc; simpl; [|by intros <-].
    destruct (Store.registers s !! r) as [reg|] eqn:Hr; simpl; [|by intros <-].
    destruct (Register.lock reg); simpl; [done|].
    destruct (PyDict.contains c _); simpl; intros <-.
    + by apply consistent_checked_out.
    + apply (consistent_same_carts s); [done | by apply same_carts_set_lock | done].
Qed.

Lemma run_cons o ops (s s' : Store.t) t t' :
  run (o :: ops) s t = Some (s', t') →
  ∃ s1 t1, completes (call o s) s1 ∧ run ops s1 t1 = Some (s', t')
           ∧ t1 = match call o s with Returns _ _ => credit o s t | _ => t end.
Proof.
  simpl. destruct (call o s) as [[] s1|e s1|]; [| |done]; intros Hrun.
  - by exists s1, (credit o s t).
  - by exists s1, t.
Qed.

Lemma consistent_run ops (s s' : Store.t) t t' :
  consistent s → run ops s t = Some (s', t') → consistent s'.
Proof.
  revert s t. induction ops as [|o ops IH]; intros s t Hcons.
  - by intros [= <- _].
  - intros (s1 & t1 & Hcall & Hrun & _)%run_cons.
    eapply IH; [|exact Hrun]. by eapply consistent_call.
Qed.

(** C2.  In every store that a run of calls reaches from a fresh store,
    the routing table leads a customer [c] to a register [r] exactly when
    [r] holds a cart of [c]; and when [checkoutCustomer(c)] then returns,
    [c] has no routing entry and no register holds a cart of [c]. *)
Theorem routing_agrees_after_run n ops (s : Store.t) t :
  run ops (Store.init n) tally0 = Some (s, t) →
  (∀ c r, Store.register_map s !! c = Some r ↔ is_Some (cart_at c r s))
  ∧ (∀ c s', Store.checkoutCustomer c s = Returns () s' →
             Store.register_map s' !! c = None
             ∧ (∀ r, cart_at c r s' = None)
             ∧ Forall (λ reg, PyDict.contains c (Register.customer_cart_map reg) = false)
                      (Store.registers s')).
Proof.
  intros Hrun.
  assert (consistent s) as Hcons
    by (eapply consistent_run; [apply consistent_init | exact Hrun]).
  split; [apply Hcons|]. intros c s' Hout.
  assert (consistent s') as [Hroute' _ _].
  { apply (consistent_call (CheckoutCustomer c) s s' Hcons). simpl. by rewrite Hout. }
  assert (Store.register_map s' !! c = None) as Hnone.
  { rewrite checkoutCustomer_spec in Hout.
    destruct (Store.register_map s !! c) as [r|]; [|done].
    destruct (Store.registers s !! r) as [reg|]; [|done].
    destruct (Register.lock reg); [done|].
    destruct (PyDict.contains c _); [|done].
    injection Hout as <-. simpl. apply lookup_delete_eq. }
  assert (∀ r, cart_at c r s' = None) as Habsent.
  { intros r. destruct (cart_at c r s') eqn:Hcart; [|done].
    assert (Store.register_map s' !! c = Some r) by (apply Hroute'; eauto).
    congruence. }
  split_and!; [done | done |].
  apply Forall_lookup. intros r reg Hr.
  specialize (Habsent r). rewrite (cart_at_Some_lookup _ _ _ _ Hr) in Habsent.
  unfold PyDict.contains. by rewrite Habsent.
Qed.

Lemma routing_agrees_after_run_witness :
  (∀ c r, Store.register_map scenario_store !! c = Some r
          ↔ is_Some (cart_at c r scenario_store))
  ∧ (∀ c s', Store.checkoutCustomer c scenario_store = Returns () s' →
             Store.register_map s' !! c = None
             ∧ (∀ r, cart_at c r s' = None)
             ∧ Forall (λ reg, PyDict.contains c (Register.customer_cart_map reg) = false)
                      (Store.registers s')).
Proof.
  apply (routing_agrees_after_run 2 scenario_ops scenario_store (mkTally 3 0)).
  vm_compute. reflexivity.
Defined.

(** ** Counting the pending items *)

Lemma foldr_totals_insert (rs : list Register.t) r reg reg' :
  rs !! r = Some reg →
  foldr (λ r acc, (Register.getTotalItems r + acc)%Z) 0%Z (<[r := reg']> rs)
  = (foldr (λ r acc, (Register.getTotalItems r + acc)%Z) 0%Z rs
     - Register.getTotalItems reg + Register.getTotalItems reg')%Z.
Proof.
  revert r. induction rs as [|r0 rs IH]; intros [|r]; simpl; try done.
  - intros [= ->]. lia.
  - intros Hr. rewrite (IH _ Hr). lia.
Qed.

Lemma total_items_insert r reg reg' (s : Store.t) :
  Store.registers s !! r = Some reg →
  total_items (Store.set_registers <[r := reg']> s)
  = (total_items s - Register.getTotalItems reg + Register.getTotalItems reg')%Z.
Proof. apply foldr_totals_insert. Qed.

Lemma total_items_lock_all (s : Store.t) : total_items (lock_all s) = total_items s.
Proof.
  unfold total_items, lock_all; simpl.
  induction (Store.registers s) as [|r rs IH]; csimpl; [done|].
  by rewrite IH.
Qed.

Lemma items_in_cart_routed c r reg (s : Store.t) :
  Store.register_map s !! c = Some r → Store.registers s !! r = Some reg →
  items_in_cart c s
  = from_option Cart.size 0%Z (PyDict.get c (Register.customer_cart_map reg)).
Proof.
  intros Hc Hr. unfold items_in_cart, pending. rewrite Hc.
  rewrite (cart_at_Some_lookup _ _ _ _ Hr). by destruct (PyDict.get c _).
Qed.

(** One call: the pending items change by what the tally is credited. *)
Lemma total_items_call o (s : Store.t) :
  match call o s with
  | Returns _ s' =>
      (total_items s' - total_items s
       = assigned (credit o s tally0) - removed (credit o s tally0))%Z
  | Raises _ s' => total_items s' = total_items s
  | Blocks => True
  end.
Proof.
  destruct o as [c i|c]; simpl.
  - rewrite assignItem_spec.
    destruct (Store.register_map s !! c) as [r|] eqn:Hc.
    + destruct (Store.registers s !! r) as [reg|] eqn:Hr; [|done].
      destruct (Register.lock reg); [done|].
      rewrite (total_items_insert _ _ _ _ Hr), getTotalItems_with_item. lia.
    + destruct (decide (locks_free s)); [|done].
      destruct (select _ _ _ _) as [r|]; [|apply total_items_lock_all].
      destruct (Store.registers s !! r) as [reg|] eqn:Hr; [|done].
      change (total_items (Store.set_register_map _ ?s0)) with (total_items s0).
      rewrite (total_items_insert _ _ _ _ Hr), getTotalItems_with_item. lia.
  - rewrite checkoutCustomer_spec.
    destruct (Store.register_map s !! c) as [r|] eqn:Hc; [|done].
    destruct (Store.registers s !! r) as [reg|] eqn:Hr; [|done].
    destruct (Register.lock reg); [done|].
    destruct (PyDict.contains c _).
    + change (total_items (Store.set_register_map _ ?s0)) with (total_items s0).
      rewrite (total_items_insert _ _ _ _ Hr), getTotalItems_without_cart.
      rewrite (items_in_cart_routed _ _ _ _ Hc Hr). lia.
    + rewrite (total_items_insert _ _ _ _ Hr), getTotalItems_set_lock. lia.
Qed.

Lemma total_items_run ops (s s' : Store.t) t t' :
  run ops s t = Some (s', t') →
  (total_items s' - total_items s
   = (assigned t' - assigned t) - (removed t' - removed t))%Z.
Proof.
  revert s t. induction ops as [|o ops IH]; intros s t; simpl.
  - intros [= <- <-]. lia.
  - pose proof (total_items_call o s) as Hcall.
    destruct (call o s) as [[] s1|e s1|]; [| |done]; intros Hrun%IH.
    + destruct o; simpl in *; lia.
    + lia.
Qed.

Lemma total_items_init n : total_items (Store.init n) = 0%Z.
Proof.
  unfold total_items, Store.init; simpl.
  induction (seq 0 (Z.to_nat n)) as [|i l IH]; csimpl; [done|].
  by rewrite IH.
Qed.

(** C7.  After every run of calls on a fresh store, the sum over all
    registers of [getTotalItems()] is the number of [assignItem] calls
    that returned, less the items that the [checkoutCustomer] calls that
    returned took away, each of them the items that were in the cart of
    its customer when it was called. *)
Theorem total_items_after_run n ops (s : Store.t) t :
  run ops (Store.init n) tally0 = Some (s, t) →
  total_items s = (assigned t - removed t)%Z.
Proof.
  intros Hrun%total_items_run. rewrite total_items_init in Hrun.
  simpl in Hrun. lia.
Qed.

Lemma total_items_after_run_witness :
  total_items checked_out_store = (3 - 2)%Z.
Proof.
  apply (total_items_after_run 2
           (scenario_ops ++ [CheckoutCustomer "c1"; CheckoutCustomer "c1"])
           checked_out_store (mkTally 3 2)).
  vm_compute. reflexivity.
Defined.

(** ** What a call leaves alone *)

Lemma frame_update c r reg reg' (s s' : Store.t) :
  Store.registers s !! r = Some reg →
  Store.registers s' = <[r := reg']> (Store.registers s) →
  (∀ c', c' ≠ c →
     PyDict.get c' (Register.customer_cart_map reg')
     = PyDict.get c' (Register.customer_cart_map reg)) →
  (∀ c', c' ≠ c → Store.register_map s' !! c' = Store.register_map s !! c') →
  frame c r s s'.
Proof.
  intros Hr Hregs Hcarts Hmap. split; [| | |done].
  - by rewrite Hregs, length_insert.
  - intros r' Hne. by rewrite Hregs, list_lookup_insert_ne.
  - intros c' r' Hne. unfold cart_at. rewrite Hregs.
    destruct (decide (r' = r)) as [->|Hr'].
    + rewrite list_lookup_insert_eq by (by eapply lookup_lt_Some).
      rewrite Hr. by apply Hcarts.
    + by rewrite list_lookup_insert_ne.
Qed.

Lemma pending_with_item c i r reg (s s' : Store.t) :
  Store.registers s !! r = Some reg →
  Store.registers s' = <[r := with_item c i reg]> (Store.registers s) →
  pending c r s' = pending c r s ++ [i].
Proof.
  intros Hr Hregs. unfold pending, cart_at. rewrite Hregs, Hr.
  rewrite list_lookup_insert_eq by (by eapply lookup_lt_Some).
  unfold with_item; simpl. rewrite get_set_eq; simpl.
  by destruct (PyDict.get c _).
Qed.

(** A call that returns, on behalf of [c], changes one register and in
    it the cart of [c] alone. *)
Lemma call_returns_frame o (s s' : Store.t) :
  call o s = Returns () s' →
  ∃ r, frame (customer_of o) r s s'
       ∧ r < length (Store.registers s)
       ∧ match o with
         | AssignItem c i =>
             Store.register_map s' !! c = Some r
             ∧ (Store.register_map s !! c = None ∨ Store.register_map s !! c = Some r)
             ∧ pending c r s' = pending c r s ++ [i]
         | CheckoutCustomer c =>
             Store.register_map s !! c = Some r
             ∧ Store.register_map s' !! c = None
         end.
Proof.
  destruct o as [c i|c]; simpl.
  - rewrite assignItem_spec.
    destruct (Store.register_map s !! c) as [r|] eqn:Hc.
    + destruct (Store.registers s !! r) as [reg|] eqn:Hr; [|done].
      destruct (Register.lock reg); [done|]. intros [= <-].
      exists r. split_and!; [| by eapply lookup_lt_Some | done | by right |].
      * apply (frame_update c r reg (with_item c i reg)); [done | done | | done].
        intros c' Hne. unfold with_item; simpl. by rewrite get_set_ne.
      * by apply (pending_with_item c i r reg).
    + destruct (decide (locks_free s)); [|done].
      destruct (select _ _ _ _) as [r|]; [|done].
      destruct (Store.registers s !! r) as [reg|] eqn:Hr; [|done]. intros [= <-].
      exists r. split_and!; [| by eapply lookup_lt_Some | | by left |].
      * apply (frame_update c r reg (with_item c i reg)); [done | done | |].
        -- intros c' Hne. unfold with_item; simpl. by rewrite get_set_ne.
        -- intros c' Hne. simpl. by rewrite lookup_insert_ne.
      * simpl. apply lookup_insert_eq.
      * by apply (pending_with_item c i r reg).
  - rewrite checkoutCustomer_spec.
    destruct (Store.register_map s !! c) as [r|] eqn:Hc; [|done].
    destruct (Store.registers s !! r) as [reg|] eqn:Hr; [|done].
    destruct (Register.lock reg); [done|].
    destruct (PyDict.contains c _); [|done]. intros [= <-].
    exists r. split_and!; [| by eapply lookup_lt_Some | done |].
    + apply (frame_update c r reg (without_cart c reg)); [done | done | |].
      * intros c' Hne. unfold without_cart; simpl. by rewrite get_del_ne.
      * intros c' Hne. simpl. by rewrite lookup_delete_ne.
    + simpl. apply lookup_delete_eq.
Qed.

(** C10.  A call of [assignItem(c, i)] that returns changes the register
    that [c] is or becomes assigned to, and nothing else of the pool; in
    that register it appends [i] to the cart of [c] and leaves the carts of
    the other customers as they were; the routing entries of the other
    customers are unchanged.  A call of [checkoutCustomer(c)] that returns
    changes the register that [c] was assigned to and nothing else of the
    pool; the carts and the routing entries of the other customers are
    unchanged, and the routing entry of [c] is gone. *)
Theorem call_frame o (s s' : Store.t) :
  call o s = Returns () s' →
  ∃ r, frame (customer_of o) r s s'
       ∧ match o with
         | AssignItem c i =>
             Store.register_map s' !! c = Some r
             ∧ pending c r s' = pending c r s ++ [i]
         | CheckoutCustomer c =>
             Store.register_map s !! c = Some r
             ∧ Store.register_map s' !! c = None
         end.
Proof.
  intros (r & Hframe & _ & Hown)%call_returns_frame. exists r. split; [done|].
  destruct o; [|done]. by destruct Hown as (? & _ & ?).
Qed.

Lemma call_frame_witness :
  ∃ r, frame "c1" r scenario_store checked_out_store
       ∧ Store.register_map scenario_store !! "c1" = Some r
       ∧ Store.register_map checked_out_store !! "c1" = None.
Proof.
  apply (call_frame (CheckoutCustomer "c1") scenario_store checked_out_store).
  vm_compute. reflexivity.
Defined.

(** ** Sticky routing *)

(** A call that raises has changed no cart and no routing entry. *)
Lemma call_raises_same o e (s s' : Store.t) :
  call o s = Raises e s' →
  Store.register_map s' = Store.register_map s
  ∧ Register.set_lock false <$> Store.registers s'
    = Register.set_lock false <$> Store.registers s.
Proof.
  destruct o as [c i|c]; simpl.
  - rewrite assignItem_spec.
    destruct (Store.register_map s !! c) as [r|] eqn:Hc.
    + destruct (Store.registers s !! r) as [reg|] eqn:Hr; [|by intros [= _ <-]].
      by destruct (Register.lock reg).
    + destruct (decide (locks_free s)); [|done].
      destruct (select _ _ _ _) as [r|].
      * destruct (Store.registers s !! r) as [reg|] eqn:Hr; [done | by intros [= _ <-]].
      * intros [= _ <-]. split; [done | apply same_carts_lock_all].
  - rewrite checkoutCustomer_spec.
    destruct (Store.register_map s !! c) as [r|] eqn:Hc; [|by intros [= _ <-]].
    destruct (Store.registers s !! r) as [reg|] eqn:Hr; [|by intros [= _ <-]].
    destruct (Register.lock reg); [done|].
    destruct (PyDict.contains c _); [done|]. intros [= _ <-].
    split; [done | by apply same_carts_set_lock].
Qed.

Lemma same_carts_cart_at c r (s s' : Store.t) :
  Register.set_lock false <$> Store.registers s'
  = Register.set_lock false <$> Store.registers s →
  cart_at c r s' = cart_at c r s.
Proof.
  intros Hregs. apply (f_equal (λ l, l !! r)) in Hregs.
  rewrite !list_lookup_fmap in Hregs. unfold cart_at.
  destruct (Store.registers s' !! r) as [reg'|], (Store.registers s !! r) as [reg|];
    simpl in Hregs; try done.
  by injection Hregs as _ ->.
Qed.

Lemma same_carts_length (s s' : Store.t) :
  Register.set_lock false <$> Store.registers s'
  = Register.set_lock false <$> Store.registers s →
  length (Store.registers s') = length (Store.registers s).
Proof. intros Hregs%(f_equal length). by rewrite !length_fmap in Hregs. Qed.

(** One call that is not a checkout of [c], made while [c] is routed to
    [r]: [c] stays routed to [r], an item assigned to [c] goes to the cart
    of [c] at [r], and no other register receives an item of [c]. *)
Lemma sticky_call o c r (s s' : Store.t) :
  Store.register_map s !! c = Some r →
  r < length (Store.registers s) →
  o ≠ CheckoutCustomer c →
  completes (call o s) s' →
  Store.register_map s' !! c = Some r
  ∧ length (Store.registers s') = length (Store.registers s)
  ∧ pending c r s' = pending c r s ++ assigned_to c [o]
  ∧ (∀ r', r' ≠ r → pending c r' s' = pending c r' s).
Proof.
  intros Hc Hlt Hne.
  destruct (call o s) as [[] s1|e s1|] eqn:Hcall; cbn [completes]; [| |done]; intros <-.
  - destruct (call_returns_frame _ _ _ Hcall) as (r0 & Hframe & _ & Hown).
    destruct o as [c' i|c']; simpl in *.
    + destruct (decide (c' = c)) as [->|Hcne].
      * destruct Hown as (Hc1 & [Hc0|Hc0] & Hpend); [congruence|].
        assert (r0 = r) as -> by congruence.
        split_and!; [done | apply Hframe | done |].
        intros r' Hr'. unfold pending, cart_at.
        by rewrite (frame_registers _ _ _ _ Hframe r' Hr').
      * split_and!; [| apply Hframe | |].
        -- rewrite (frame_routing _ _ _ _ Hframe); [done | congruence].
        -- unfold pending. rewrite (frame_carts _ _ _ _ Hframe); [|congruence].
           by rewrite app_nil_r.
        -- intros r' _. unfold pending.
           rewrite (frame_carts _ _ _ _ Hframe); [done | congruence].
    + assert (c ≠ c') as Hcne by congruence.
      split_and!; [| apply Hframe | |].
      * by rewrite (frame_routing _ _ _ _ Hframe).
      * unfold pending. rewrite (frame_carts _ _ _ _ Hframe) by done.
        by rewrite app_nil_r.
      * intros r' _. unfold pending. by rewrite (frame_carts _ _ _ _ Hframe).
  - destruct (call_raises_same _ _ _ _ Hcall) as [Hmap Hregs].
    assert (assigned_to c [o] = []) as ->.
    { destruct o as [c' i|c']; simpl; [|done].
      destruct (decide (c' = c)) as [->|]; [|done].
      simpl in Hcall. rewrite assignItem_spec, Hc in Hcall.
      destruct (lookup_lt_is_Some_2 _ _ Hlt) as [reg Hr]. rewrite Hr in Hcall.
      by destruct (Register.lock reg). }
    split_and!.
    + by rewrite Hmap.
    + by apply same_carts_length.
    + unfold pending. by rewrite (same_carts_cart_at _ _ _ _ Hregs), app_nil_r.
    + intros r' _. unfold pending. by rewrite (same_carts_cart_at _ _ _ _ Hregs).
Qed.

Lemma assigned_to_cons c o ops :
  assigned_to c (o :: ops) = assigned_to c [o] ++ assigned_to c ops.
Proof.
  destruct o as [c' i|c']; simpl; [|done]. by destruct (decide (c' = c)).
Qed.

Lemma sticky_run ops c r (s s' : Store.t) t t' :
  Store.register_map s !! c = Some r →
  r < length (Store.registers s) →
  CheckoutCustomer c ∉ ops →
  run ops s t = Some (s', t') →
  Store.register_map s' !! c = Some r
  ∧ pending c r s' = pending c r s ++ assigned_to c ops
  ∧ (∀ r', r' ≠ r → pending c r' s' = pending c r' s).
Proof.
  revert s t. induction ops as [|o ops IH]; intros s t Hc Hlt Hnot.
  - intros [= <- _]. simpl. by rewrite app_nil_r.
  - intros (s1 & t1 & Hcall & Hrun & _)%run_cons.
    apply not_elem_of_cons in Hnot as [Hne Hnot].
    destruct (sticky_call o c r s s1) as (Hc1 & Hlen & Hpend & Hother);
      [done | done | congruence | done |].
    destruct (IH s1 t1) as (Hc' & Hpend' & Hother'); [done | lia | done | done |].
    split_and!; [done | |].
    + by rewrite Hpend', Hpend, (assigned_to_cons c o ops), app_assoc.
    + intros r' Hr'. by rewrite Hother', Hother.
Qed.

(** C5.  Let [assignItem(c, i)] return for a customer [c] without a
    routing entry, and let any calls follow but a checkout of [c].  The
    first call has taken the register [r] that the least-utilized scan
    returns and has recorded it for [c]; [c] is still routed to [r] at the
    end; the cart of [c] at [r] has received [i] and then every item
    assigned to [c], in order, and no other register has received an item
    of [c].  Whenever [c] is routed to [r], [assignItem] for [c] is the
    call of [addItemToCart] on [r] and nothing else: no scan is made. *)
Theorem sticky_routing c i ops (s s1 s2 : Store.t) t t2 :
  Store.register_map s !! c = None →
  Store.assignItem c i s = Returns () s1 →
  CheckoutCustomer c ∉ ops →
  run ops s1 t = Some (s2, t2) →
  ∃ r, Store.getLeastUtilizedRegister s = Returns r s
       ∧ Store.register_map s1 !! c = Some r
       ∧ Store.register_map s2 !! c = Some r
       ∧ pending c r s2 = pending c r s ++ i :: assigned_to c ops
       ∧ (∀ r', r' ≠ r → pending c r' s2 = pending c r' s)
       ∧ (∀ j s', Store.register_map s' !! c = Some r →
                  Store.assignItem c j s'
                  = Store.on_register r (Register.addItemToCart c j) s').
Proof.
  intros Hc Hassign Hnot Hrun.
  destruct (call_returns_frame (AssignItem c i) s s1 Hassign)
    as (r & Hframe & Hlt & Hc1 & _ & Hpend).
  assert (Store.getLeastUtilizedRegister s = Returns r s) as Hscan.
  { rewrite assignItem_spec, Hc in Hassign. rewrite getLeastUtilizedRegister_spec.
    destruct (decide (locks_free s)); [|done].
    destruct (select _ _ _ _) as [r0|]; [|done].
    destruct (Store.registers s !! r0); [|done].
    injection Hassign as <-. simpl in Hc1. rewrite lookup_insert_eq in Hc1.
    congruence. }
  destruct (sticky_run ops c r s1 s2 t t2) as (Hc2 & Hpend2 & Hother);
    [done | by rewrite (frame_size _ _ _ _ Hframe) | done | done |].
  exists r. split_and!; [done | done | done | | |].
  - by rewrite Hpend2, Hpend, <- app_assoc.
  - intros r' Hr'. rewrite Hother by done. unfold pending, cart_at.
    by rewrite (frame_registers _ _ _ _ Hframe r' Hr').
  - intros j s' Hc'. unfold Store.assignItem, bind, get. by rewrite Hc'.
Qed.

Lemma sticky_routing_witness :
  ∃ r, Store.getLeastUtilizedRegister (Store.init 2) = Returns r (Store.init 2)
       ∧ Store.register_map scenario_store !! "c1" = Some r
       ∧ pending "c1" r scenario_store
         = pending "c1" r (Store.init 2) ++ ["apple"; "pear"].
Proof.
  destruct (sticky_routing "c1" "apple"
              [AssignItem "c2" "banana"; AssignItem "c1" "pear"]
              (Store.init 2)
              (Store.mk [Register.mk 0 [("c1", Cart.mk "c1" ["apple"])] false;
                         Register.init 1]
                        (<["c1" := 0]> ∅))
              scenario_store tally0 (mkTally 2 0))
    as (r & Hscan & _ & Hc2 & Hpend & _).
  - reflexivity.
  - vm_compute. reflexivity.
  - intros [Hin|Hin]%elem_of_cons; [done|].
    apply elem_of_cons in Hin as [Hin|Hin]; [done | by apply elem_of_nil in Hin].
  - vm_compute. reflexivity.
  - exists r. split_and!; [done | done | exact Hpend].
Defined.

(** ** Failing checkouts *)

(** C3.  [checkoutCustomer(c)] raises
    [Exception("Attempted to checkout customer without a cart")] exactly
    when [c] has no routing entry, and then the store is as it was.  When
    [checkoutCart] raises at the register, [checkoutCustomer] raises the
    same exception and the routing table is as it was.  However the call
    ends, if every routing entry led to a register holding a cart of its
    customer before the call, so it does after it. *)
Theorem checkoutCustomer_failure c (s : Store.t) :
  ((∃ s', Store.checkoutCustomer c s = Raises no_cart s')
   ↔ Store.register_map s !! c = None)
  ∧ (∀ s', Store.checkoutCustomer c s = Raises no_cart s' → s' = s)
  ∧ (∀ r reg e reg',
       Store.register_map s !! c = Some r →
       Store.registers s !! r = Some reg →
       Register.checkoutCart c reg = Raises e reg' →
       ∃ s', Store.checkoutCustomer c s = Raises e s'
             ∧ Store.register_map s' = Store.register_map s)
  ∧ (∀ s', completes (Store.checkoutCustomer c s) s' →
           (∀ c' r, Store.register_map s !! c' = Some r → is_Some (cart_at c' r s)) →
           ∀ c' r, Store.register_map s' !! c' = Some r → is_Some (cart_at c' r s')).
Proof.
  split_and!.
  - rewrite checkoutCustomer_spec.
    destruct (Store.register_map s !! c) as [r|]; [|split; eauto].
    split; [|done]. intros [s' Hout].
    destruct (Store.registers s !! r) as [reg|]; [|done].
    destruct (Register.lock reg); [done|].
    by destruct (PyDict.contains c _).
  - intros s'. rewrite checkoutCustomer_spec.
    destruct (Store.register_map s !! c) as [r|]; [|by intros [= <-]].
    destruct (Store.registers s !! r) as [reg|]; [|done].
    destruct (Register.lock reg); [done|].
    by destruct (PyDict.contains c _).
  - intros r reg e reg' Hc Hr Hinner.
    unfold Store.checkoutCustomer, bind, get, Store.on_register.
    rewrite Hc, Hr, Hinner. eauto.
  - intros s' Hout Hheld c' r.
    destruct (Store.checkoutCustomer c s) as [[] s1|e s1|] eqn:Hcall;
      cbn [completes] in Hout; [| |done]; subst s1.
    + destruct (call_returns_frame (CheckoutCustomer c) s s' Hcall)
        as (r0 & Hframe & _ & _ & Hgone).
      destruct (decide (c' = c)) as [->|Hne]; [congruence|].
      rewrite (frame_routing _ _ _ _ Hframe), (frame_carts _ _ _ _ Hframe) by done.
      apply Hheld.
    + destruct (call_raises_same (CheckoutCustomer c) e s s' Hcall) as [-> Hregs].
      rewrite (same_carts_cart_at _ _ _ _ Hregs). apply Hheld.
Qed.

Lemma checkoutCustomer_failure_witness :
  ∃ s', Store.checkoutCustomer "c1" stale_store = Raises cart_missing s'
        ∧ Store.register_map s' = Store.register_map stale_store.
Proof.
  destruct (checkoutCustomer_failure "c1" stale_store) as (_ & _ & Hinner & _).
  apply (Hinner 0 (Register.init 0) cart_missing
           (Register.set_lock true (Register.init 0))); reflexivity.
Defined.

(** ** Locks after a call *)

Lemma addItemToCart_releases c i (r r' : Register.t) :
  completes_in (Register.addItemToCart c i r) r' → Register.lock r' = false.
Proof.
  rewrite addItemToCart_spec. destruct (Register.lock r) eqn:Hl; simpl; [done|].
  by intros <-.
Qed.

Lemma checkoutCart_return_releases c (r r' : Register.t) :
  Register.checkoutCart c r = Returns () r' → Register.lock r' = false.
Proof.
  rewrite checkoutCart_spec. destruct (Register.lock r) eqn:Hl; [done|].
  destruct (PyDict.contains c _); [|done]. by intros [= <-].
Qed.

(** C4.  [checkoutCart] for a customer without a cart at the register
    raises with the lock of the register still held: the next call on the
    register blocks.  At the store, a checkout that fails at the register
    leaves that lock held as well, and the next scan blocks. *)
Theorem checkoutCart_raise_keeps_lock :
  (∃ r', Register.checkoutCart "c1" (Register.init 0) = Raises cart_missing r'
         ∧ Register.lock r' = true
         ∧ Register.addItemToCart "c1" "apple" r' = Blocks)
  ∧ (∃ s', Store.checkoutCustomer "c1" stale_store = Raises cart_missing s'
           ∧ ¬ locks_free s'
           ∧ Store.getLeastUtilizedRegister s' = Blocks
           ∧ Store.getAllRegisterState s' = Blocks).
Proof.
  split.
  - exists (Register.set_lock true (Register.init 0)). by split_and!.
  - eexists. split; [reflexivity|]. split_and!; [|done|done].
    intros Hfree. apply Forall_cons in Hfree as [Hheld _]. done.
Qed.

(** ** The state shown to the adapter *)

Lemma all_state_loop_spec (s : Store.t) (seen rest : list Register.t) state :
  Store.registers s = seen ++ rest →
  Store.all_state_loop (seq (length seen) (length rest)) state s
  = Returns (states_of rest state) s.
Proof.
  revert seen state. induction rest as [|r rest IH]; intros seen state Hs; csimpl.
  - done.
  - assert (Store.registers s !! length seen = Some r) as Hr
      by (rewrite Hs; by apply list_lookup_middle).
    unfold bind. rewrite !(on_register_query _ _ r) by done.
    replace (S (length seen)) with (length (seen ++ [r]))
      by (rewrite length_app; simpl; lia).
    apply IH. by rewrite <- app_assoc.
Qed.

Lemma states_of_lock_all (rs : list Register.t) state :
  states_of (Register.set_lock true <$> rs) state = states_of rs state.
Proof. unfold states_of. by rewrite foldl_fmap. Qed.

Lemma getAllRegisterState_spec (s : Store.t) :
  Store.getAllRegisterState s
  = if decide (locks_free s) then Returns (states_of (Store.registers s) ∅) s
    else Blocks.
Proof.
  unfold Store.getAllRegisterState, bind at 1. rewrite lockRegisters_spec.
  destruct (decide (locks_free s)) as [Hfree|]; [|done].
  unfold bind, get. rewrite pool_lock_all. unfold Store.pool.
  pose proof (all_state_loop_spec (lock_all s) []
                (Register.set_lock true <$> Store.registers s) ∅) as Hloop.
  simpl in Hloop. rewrite length_fmap in Hloop. rewrite Hloop by done.
  rewrite unlockRegisters_lock_all by done. by rewrite states_of_lock_all.
Qed.

Lemma states_of_other (rs : list Register.t) state id :
  id ∉ Register.register_id <$> rs → states_of rs state !! id = state !! id.
Proof.
  revert state. induction rs as [|r rs IH]; intros state; csimpl; [done|].
  intros [Hne Hnot]%not_elem_of_cons.
  unfold states_of in *; simpl. rewrite IH by done. by rewrite lookup_insert_ne.
Qed.

Lemma states_of_lookup (rs : list Register.t) state i r :
  NoDup (Register.register_id <$> rs) → rs !! i = Some r →
  states_of rs state !! Register.register_id r = Some (Register.getRegisterState r).
Proof.
  revert state i. induction rs as [|r0 rs IH]; intros state i; csimpl; [done|].
  intros [Hnot Hnd]%NoDup_cons. destruct i as [|i]; simpl.
  - intros [= ->]. change (states_of (r :: rs) state)
      with (states_of rs (<[Register.register_id r := Register.getRegisterState r]> state)).
    rewrite states_of_other by done. apply lookup_insert_eq.
  - intros Hr. by apply (IH _ i).
Qed.

Lemma register_ids_seq (rs : list Register.t) :
  (∀ i r, rs !! i = Some r → Register.register_id r = i) →
  Register.register_id <$> rs = seq 0 (length rs).
Proof.
  intros Hids. apply list_eq. intros i. rewrite list_lookup_fmap.
  destruct (rs !! i) as [r|] eqn:Hr; simpl.
  - rewrite (Hids _ _ Hr). symmetry. apply lookup_seq_lt. by eapply lookup_lt_Some.
  - symmetry. apply lookup_seq_ge. by apply lookup_ge_None.
Qed.

Lemma length_owners_of_carts d :
  Z.of_nat (length (owners_of_carts d)) = items_of_carts d.
Proof.
  induction d as [|[k v] d IH]; simpl; [done|].
  rewrite length_app, length_replicate. unfold Cart.size. lia.
Qed.

Lemma filter_replicate_eq (c : string) n :
  filter (λ owner, owner = c) (replicate n c) = replicate n c.
Proof. induction n as [|n IH]; simpl; [done|]. by rewrite filter_cons_True, IH. Qed.

Lemma filter_replicate_ne (c k : string) n :
  k ≠ c → filter (λ owner, owner = c) (replicate n k) = [].
Proof. intros Hne. induction n as [|n IH]; simpl; [done|]. by rewrite filter_cons_False. Qed.

Lemma owners_of_absent c d :
  c ∉ PyDict.keys d → Forall (λ kv, Cart.customer_id kv.2 = kv.1) d →
  filter (λ owner, owner = c) (owners_of_carts d) = [].
Proof.
  unfold PyDict.keys. induction d as [|[k v] d IH]; csimpl; [done|].
  intros [Hne Hnot]%not_elem_of_cons [Hk Hown]%Forall_cons. simpl in Hk.
  rewrite filter_app, IH by done. rewrite filter_replicate_ne; [done | congruence].
Qed.

(** Each customer owns as many entries of the state of a register as
    its cart there has items. *)
Lemma owners_of_carts_count c d :
  carts_wf d →
  length (filter (λ owner, owner = c) (owners_of_carts d))
  = length (from_option Cart.items [] (PyDict.get c d)).
Proof.
  unfold carts_wf, PyDict.keys. induction d as [|[k v] d IH]; csimpl; [done|].
  intros [[Hnot Hnd]%NoDup_cons [Hk Hown]%Forall_cons]. simpl in Hk.
  rewrite filter_app, length_app. destruct (decide (c = k)) as [->|Hne].
  - rewrite Hk, filter_replicate_eq, length_replicate.
    rewrite owners_of_absent by done. simpl. lia.
  - rewrite filter_replicate_ne by congruence. simpl. by apply IH.
Qed.

(** C8.  Called with no lock held on a consistent store,
    [getAllRegisterState] returns a mapping and leaves the store as it
    was.  The mapping has the ids of the registers as its keys and maps
    the id of each register to the sequence of its [getRegisterState()];
    the length of that sequence is the [getTotalItems()] of the register,
    and each customer occurs in it once for every item pending in its
    cart at the register. *)
Theorem getAllRegisterState_states (s : Store.t) :
  locks_free s → consistent s →
  ∃ state,
    Store.getAllRegisterState s = Returns state s
    ∧ (∀ id, is_Some (state !! id) → id < length (Store.registers s))
    ∧ ∀ i r, Store.registers s !! i = Some r →
        state !! Register.register_id r = Some (Register.getRegisterState r)
        ∧ Z.of_nat (length (Register.getRegisterState r)) = Register.getTotalItems r
        ∧ ∀ c, length (filter (λ owner, owner = c) (Register.getRegisterState r))
               = length (pending c i s).
Proof.
  intros Hfree [_ Hcarts Hids].
  pose proof (register_ids_seq _ Hids) as Hseq.
  exists (states_of (Store.registers s) ∅). split_and!.
  - by rewrite getAllRegisterState_spec, decide_True.
  - intros id Hsome. destruct (decide (id < length (Store.registers s))); [done|].
    rewrite states_of_other, lookup_empty in Hsome; [by destruct Hsome|].
    rewrite Hseq, elem_of_seq. lia.
  - intros i r Hr. split_and!.
    + apply (states_of_lookup _ _ i); [|done]. rewrite Hseq. apply NoDup_seq.
    + by rewrite getRegisterState_owners, length_owners_of_carts, getTotalItems_sum.
    + intros c. rewrite getRegisterState_owners. unfold pending.
      rewrite (cart_at_Some_lookup _ _ _ _ Hr). apply owners_of_carts_count.
      by apply (Forall_lookup_1 _ _ _ _ Hcarts Hr).
Qed.

Lemma scenario_consistent : consistent scenario_store.
Proof. eapply consistent_run; [apply (consistent_init 2) | apply scenario_run]. Qed.

Lemma getAllRegisterState_states_witness :
  ∃ state,
    Store.getAllRegisterState scenario_store = Returns state scenario_store
    ∧ state !! 0 = Some ["c1"; "c1"] ∧ state !! 1 = Some ["c2"].
Proof.
  destruct (getAllRegisterState_states scenario_store) as (state & Hret & _ & Hregs).
  - apply scenario_free.
  - apply scenario_consistent.
  - exists state. split_and!; [done | |].
    + by destruct (Hregs 0 _ eq_refl) as [? _].
    + by destruct (Hregs 1 _ eq_refl) as [? _].
Defined.

(** ** Runs come to an end *)

Lemma getTotalItems_nonneg (r : Register.t) : (0 ≤ Register.getTotalItems r)%Z.
Proof. rewrite getTotalItems_sum. apply items_of_carts_nonneg. Qed.

Lemma total_items_bounds (s : Store.t) :
  Forall (λ r, (Register.getTotalItems r ≤ total_items s)%Z) (Store.registers s)
  ∧ (0 ≤ total_items s)%Z.
Proof.
  unfold total_items. induction (Store.registers s) as [|r rs [IH Hnn]]; simpl.
  - split; [constructor | lia].
  - pose proof (getTotalItems_nonneg r). split; [|lia].
    constructor; [lia|]. eapply Forall_impl; [exact IH|]. intros; simpl in *; lia.
Qed.

Lemma representable_total_items (s : Store.t) :
  (total_items s < sys_maxsize)%Z → representable s.
Proof.
  intros Hlt. destruct (total_items_bounds s) as [Hall _].
  eapply Forall_impl; [exact Hall|]. intros; simpl in *; lia.
Qed.

(** On a consistent store with no lock held and room for one more item,
    every call comes to an end and leaves no lock held. *)
Lemma call_completes o (s : Store.t) :
  locks_free s → consistent s → (total_items s < sys_maxsize)%Z →
  ∃ s', completes (call o s) s' ∧ locks_free s'
        ∧ (total_items s' ≤ total_items s + 1)%Z.
Proof.
  intros Hfree Hcons Hroom.
  pose proof (total_items_call o s) as Hcount.
  assert (∀ r reg reg', Store.registers s !! r = Some reg →
            Register.lock reg' = false →
            locks_free (Store.set_registers <[r := reg']> s)) as Hins.
  { intros r reg reg' Hr Hl. unfold locks_free; simpl. by apply Forall_insert. }
  assert (∀ c, (0 ≤ items_in_cart c s)%Z) as Hnn.
  { intros c. unfold items_in_cart. destruct (Store.register_map s !! c); lia. }
  destruct o as [c i|c]; simpl in *.
  - rewrite assignItem_spec in Hcount |- *.
    destruct (Store.register_map s !! c) as [r|] eqn:Hc.
    + destruct (proj1 (cons_routing s Hcons c r) Hc) as [cart Hcart].
      unfold cart_at in Hcart.
      destruct (Store.registers s !! r) as [reg|] eqn:Hr; [|done].
      pose proof (Forall_lookup_1 _ _ _ _ Hfree Hr) as Hl. simpl in Hl.
      rewrite Hl in Hcount |- *. eexists. split_and!; [done | | lia].
      by apply (Hins r reg).
    + rewrite decide_True in Hcount |- * by done.
      pose proof (select_spec (totals s)) as Hsel.
      destruct (select (totals s) 0 sys_maxsize None) as [r|] eqn:Hr0.
      * destruct Hsel as [Hlt _]. rewrite length_totals in Hlt.
        destruct (lookup_lt_is_Some_2 _ _ Hlt) as [reg Hr].
        rewrite Hr in Hcount |- *. eexists. split_and!; [done | | lia].
        apply (Hins r reg); [done|]. simpl.
        by apply (Forall_lookup_1 _ _ _ _ Hfree Hr).
      * destruct (Store.registers s) as [|reg rs] eqn:Hregs.
        -- rewrite lock_all_empty in Hcount |- * by done.
           eexists. split_and!; [done | done | lia].
        -- apply representable_total_items, representable_totals in Hroom.
           unfold totals in Hroom, Hsel. rewrite Hregs in Hroom, Hsel.
           apply Forall_cons in Hroom as [? _]. apply Forall_cons in Hsel as [? _].
           simpl in *. lia.
  - rewrite checkoutCustomer_spec in Hcount |- *.
    destruct (Store.register_map s !! c) as [r|] eqn:Hc.
    + destruct (proj1 (cons_routing s Hcons c r) Hc) as [cart Hcart].
      unfold cart_at in Hcart.
      destruct (Store.registers s !! r) as [reg|] eqn:Hr; [|done].
      pose proof (Forall_lookup_1 _ _ _ _ Hfree Hr) as Hl. simpl in Hl.
      rewrite Hl in Hcount |- *. unfold PyDict.contains in Hcount |- *.
      rewrite Hcart in Hcount |- *.
      eexists. split_and!; [done | | specialize (Hnn c); lia].
      by apply (Hins r reg).
    + eexists. split_and!; [done | done | lia].
Qed.

(** A run of fewer calls than a container can hold items, on a fresh
    store, comes to an end; no lock is held then. *)
Lemma run_completes ops (s : Store.t) t :
  locks_free s → consistent s →
  (total_items s + Z.of_nat (length ops) < sys_maxsize)%Z →
  ∃ s' t', run ops s t = Some (s', t') ∧ locks_free s'.
Proof.
  revert s t. induction ops as [|o ops IH]; intros s t Hfree Hcons Hroom.
  - by exists s, t.
  - simpl length in Hroom.
    destruct (call_completes o s) as (s1 & Hcall & Hfree1 & Hle); [done | done | lia |].
    assert (consistent s1) as Hcons1 by (by eapply consistent_call).
    simpl. destruct (call o s) as [[] s2|e s2|]; simpl in Hcall; [| |done]; subst s2;
      apply IH; try done; lia.
Qed.

Lemma locks_free_init n : locks_free (Store.init n).
Proof.
  unfold locks_free, Store.init; simpl. apply Forall_fmap, Forall_true. by intros i.
Qed.

Lemma run_init_completes n ops :
  (Z.of_nat (length ops) < sys_maxsize)%Z →
  ∃ s t, run ops (Store.init n) tally0 = Some (s, t) ∧ locks_free s.
Proof.
  intros Hlen. apply run_completes; [apply locks_free_init | apply consistent_init |].
  rewrite total_items_init. lia.
Qed.

(** On a consistent store every reference that a call follows leads to a
    register of the pool. *)
Lemma consistent_no_wild_reference o (s s' : Store.t) :
  consistent s → call o s ≠ Raises WildReference s'.
Proof.
  intros Hcons. destruct o as [c i|c]; simpl.
  - rewrite assignItem_spec.
    destruct (Store.register_map s !! c) as [r|] eqn:Hc.
    + destruct (proj1 (cons_routing s Hcons c r) Hc) as [cart Hcart].
      unfold cart_at in Hcart.
      destruct (Store.registers s !! r) as [reg|]; [|done].
      by destruct (Register.lock reg).
    + destruct (decide (locks_free s)); [|done].
      pose proof (select_spec (totals s)) as Hsel.
      destruct (select (totals s) 0 sys_maxsize None) as [r|]; [|done].
      destruct Hsel as [Hlt _]. rewrite length_totals in Hlt.
      by destruct (lookup_lt_is_Some_2 _ _ Hlt) as [reg ->].
  - rewrite checkoutCustomer_spec.
    destruct (Store.register_map s !! c) as [r|] eqn:Hc; [|done].
    destruct (proj1 (cons_routing s Hcons c r) Hc) as [cart Hcart].
    unfold cart_at in Hcart.
    destruct (Store.registers s !! r) as [reg|]; [|done].
    destruct (Register.lock reg); [done|].
    by destruct (PyDict.contains c _).
Qed.

(** * Further properties of the registers *)

Section PyDict_more.
Context {K V : Type} `{EqDecision K}.
Implicit Types (k : K) (v : V) (d : list (K * V)).

Lemma del_set k v d : PyDict.del k (PyDict.set k v d) = PyDict.del k d.
Proof.
  induction d as [|[k' v'] d IH]; csimpl.
  - by rewrite decide_True.
  - destruct (decide (k = k')) as [->|Hne]; csimpl.
    + by rewrite decide_True.
    + by rewrite decide_False, IH.
Qed.

Lemma del_absent k d : PyDict.get k d = None → PyDict.del k d = d.
Proof.
  induction d as [|[k' v'] d IH]; csimpl; [done|].
  destruct (decide (k = k')); [done|]. intros Hg. by rewrite IH.
Qed.

Lemma set_absent k v d : PyDict.get k d = None → PyDict.set k v d = d ++ [(k, v)].
Proof.
  induction d as [|[k' v'] d IH]; csimpl; [done|].
  destruct (decide (k = k')); [done|]. intros Hg. by rewrite IH.
Qed.
End PyDict_more.

Lemma without_cart_with_item c i (r : Register.t) :
  without_cart c (with_item c i r) = without_cart c r.
Proof. unfold without_cart, with_item, Register.set_carts; simpl. by rewrite del_set. Qed.

Lemma without_cart_absent c (r : Register.t) :
  PyDict.get c (Register.customer_cart_map r) = None → without_cart c r = r.
Proof.
  intros Hg. destruct r as [id d l]; unfold without_cart, Register.set_carts; simpl in *.
  by rewrite del_absent.
Qed.

Lemma contains_with_item c i (r : Register.t) :
  PyDict.contains c (Register.customer_cart_map (with_item c i r)) = true.
Proof. unfold PyDict.contains, with_item; simpl. by rewrite get_set_eq. Qed.

(** X1.  [addItemToCart] on a register whose lock is free returns with
    the lock free again: the cart of the customer holds its former items
    followed by the new one (a cart made for a customer without one is
    filed under that customer), the carts of the other customers and the
    id of the register are as before, and the register holds one item
    more.  On a register whose lock is held the call blocks. *)
Theorem addItemToCart_appends c i (r : Register.t) :
  (Register.lock r = true → Register.addItemToCart c i r = Blocks)
  ∧ (Register.lock r = false →
     ∃ r' cart',
       Register.addItemToCart c i r = Returns () r'
       ∧ Register.lock r' = false
       ∧ Register.register_id r' = Register.register_id r
       ∧ PyDict.get c (Register.customer_cart_map r') = Some cart'
       ∧ Cart.items cart'
         = from_option Cart.items [] (PyDict.get c (Register.customer_cart_map r)) ++ [i]
       ∧ (PyDict.get c (Register.customer_cart_map r) = None →
          Cart.customer_id cart' = c)
       ∧ (∀ c', c' ≠ c →
            PyDict.get c' (Register.customer_cart_map r')
            = PyDict.get c' (Register.customer_cart_map r))
       ∧ Register.getTotalItems r' = (Register.getTotalItems r + 1)%Z).
Proof.
  rewrite addItemToCart_spec. split; intros Hl; rewrite Hl; [done|].
  eexists _, _. split_and!; [done | done | done | apply get_set_eq | | | |].
  - by destruct (PyDict.get c _).
  - by intros ->.
  - intros c' Hne. unfold with_item; simpl. by rewrite get_set_ne.
  - apply getTotalItems_with_item.
Qed.

Lemma addItemToCart_appends_witness :
  ∃ r' cart',
    Register.addItemToCart "c1" "pear"
      (Register.mk 0 [("c1", Cart.mk "c1" ["apple"])] false) = Returns () r'
    ∧ PyDict.get "c1" (Register.customer_cart_map r') = Some cart'
    ∧ Cart.items cart' = ["apple"; "pear"].
Proof.
  destruct (addItemToCart_appends "c1" "pear"
              (Register.mk 0 [("c1", Cart.mk "c1" ["apple"])] false))
    as [_ Hfree].
  destruct Hfree as (r' & cart' & Hret & _ & _ & Hget & Hitems & _); [reflexivity|].
  by exists r', cart'.
Defined.

(** X2.  On a register whose lock is free and that holds no cart of the
    customer, [addItemToCart] followed by [checkoutCart] for that customer
    gives the register back as it was. *)
Theorem addItemToCart_checkoutCart_round_trip c i (r : Register.t) :
  Register.lock r = false →
  PyDict.get c (Register.customer_cart_map r) = None →
  ∃ r1, Register.addItemToCart c i r = Returns () r1
        ∧ Register.checkoutCart c r1 = Returns () r.
Proof.
  intros Hl Hg. exists (with_item c i r). split.
  - by rewrite addItemToCart_spec, Hl.
  - rewrite checkoutCart_spec, contains_with_item. simpl. rewrite Hl.
    by rewrite without_cart_with_item, without_cart_absent.
Qed.

Lemma addItemToCart_checkoutCart_round_trip_witness :
  ∃ r1, Register.addItemToCart "c1" "apple" (Register.init 0) = Returns () r1
        ∧ Register.checkoutCart "c1" r1 = Returns () (Register.init 0).
Proof.
  apply (addItemToCart_checkoutCart_round_trip "c1" "apple" (Register.init 0));
    reflexivity.
Defined.

Lemma filter_others_replicate_eq (c : string) n :
  filter (λ owner, owner ≠ c) (replicate n c) = [].
Proof. induction n as [|n IH]; simpl; [done|]. rewrite filter_cons_False; [done | intros Hcc; by apply Hcc]. Qed.

Lemma filter_others_replicate_ne (c k : string) n :
  k ≠ c → filter (λ owner, owner ≠ c) (replicate n k) = replicate n k.
Proof. intros Hne. induction n as [|n IH]; simpl; [done|]. by rewrite filter_cons_True, IH. Qed.

Lemma owners_of_carts_app d1 d2 :
  owners_of_carts (d1 ++ d2) = owners_of_carts d1 ++ owners_of_carts d2.
Proof.
  induction d1 as [|[k v] d1 IH]; simpl; [done|]. by rewrite IH, app_assoc.
Qed.

Lemma owners_of_others c d :
  c ∉ PyDict.keys d → Forall (λ kv, Cart.customer_id kv.2 = kv.1) d →
  filter (λ owner, owner ≠ c) (owners_of_carts d) = owners_of_carts d.
Proof.
  unfold PyDict.keys. induction d as [|[k v] d IH]; csimpl; [done|].
  intros [Hne Hnot]%not_elem_of_cons [Hk Hown]%Forall_cons. simpl in Hk.
  rewrite filter_app, IH by done.
  rewrite filter_others_replicate_ne; [done | congruence].
Qed.

Lemma owners_of_carts_del c d :
  carts_wf d →
  owners_of_carts (PyDict.del c d) = filter (λ owner, owner ≠ c) (owners_of_carts d).
Proof.
  unfold carts_wf, PyDict.keys. induction d as [|[k v] d IH]; csimpl; [done|].
  intros [[Hnot Hnd]%NoDup_cons [Hk Hown]%Forall_cons]. simpl in Hk.
  rewrite filter_app. destruct (decide (c = k)) as [->|Hne]; simpl.
  - rewrite Hk, filter_others_replicate_eq, owners_of_others by done. done.
  - rewrite filter_others_replicate_ne by congruence. by rewrite IH.
Qed.

Lemma owners_of_carts_set c i cart d :
  Forall (λ kv, Cart.customer_id kv.2 = kv.1) d →
  PyDict.get c d = Some cart →
  owners_of_carts (PyDict.set c (Cart.addItem i cart) d) ≡ₚ c :: owners_of_carts d
  ∧ filter (λ owner, owner ≠ c) (owners_of_carts (PyDict.set c (Cart.addItem i cart) d))
    = filter (λ owner, owner ≠ c) (owners_of_carts d).
Proof.
  induction d as [|[k v] d IH]; csimpl; [done|].
  intros [Hk Hown]%Forall_cons. simpl in Hk.
  destruct (decide (c = k)) as [->|Hne]; simpl.
  - intros [= ->]. rewrite Hk, length_app, Nat.add_comm. simpl. split; [done|].
    rewrite filter_cons_False by (intros Hcc; by apply Hcc). done.
  - intros Hg. destruct (IH Hown Hg) as [Hperm Hfilter]. split.
    + rewrite Hperm. by rewrite Permutation_middle.
    + by rewrite !filter_app, Hfilter.
Qed.

(** X3.  [checkoutCart] for a customer with a cart at a register whose
    lock is free returns with the lock free: the cart of the customer is
    gone, the state of the register is its former state without the
    entries of that customer, the others in their order, and the register
    holds as many items less as the cart had. *)
Theorem checkoutCart_removes c cart (r : Register.t) :
  Register.lock r = false →
  carts_wf (Register.customer_cart_map r) →
  PyDict.get c (Register.customer_cart_map r) = Some cart →
  ∃ r', Register.checkoutCart c r = Returns () r'
        ∧ Register.lock r' = false
        ∧ PyDict.get c (Register.customer_cart_map r') = None
        ∧ Register.getRegisterState r'
          = filter (λ owner, owner ≠ c) (Register.getRegisterState r)
        ∧ Register.getTotalItems r' = (Register.getTotalItems r - Cart.size cart)%Z.
Proof.
  intros Hl Hwf Hg. exists (without_cart c r). split_and!.
  - rewrite checkoutCart_spec, Hl. unfold PyDict.contains. by rewrite Hg.
  - done.
  - unfold without_cart; simpl. apply get_del_eq, Hwf.
  - rewrite !getRegisterState_owners. by apply owners_of_carts_del.
  - rewrite getTotalItems_without_cart. by rewrite Hg.
Qed.

Lemma checkoutCart_removes_witness :
  ∃ r', Register.checkoutCart "c1"
          (Register.mk 0 [("c1", Cart.mk "c1" ["apple"; "pear"]);
                          ("c2", Cart.mk "c2" ["banana"])] false) = Returns () r'
        ∧ Register.getRegisterState r' = ["c2"]
        ∧ Register.getTotalItems r' = 1%Z.
Proof.
  destruct (checkoutCart_removes "c1" (Cart.mk "c1" ["apple"; "pear"])
              (Register.mk 0 [("c1", Cart.mk "c1" ["apple"; "pear"]);
                              ("c2", Cart.mk "c2" ["banana"])] false))
    as (r' & Hret & _ & _ & Hstate & Htotal).
  - reflexivity.
  - split.
    + apply NoDup_cons. split; [|apply NoDup_singleton].
      by intros ?%list_elem_of_singleton.
    + by repeat constructor.
  - reflexivity.
  - exists r'. split_and!; [exact Hret | exact Hstate | exact Htotal].
Defined.

(** X4.  The state of a register after [addItemToCart]: one more entry
    for the customer and the entries of the others as they were, in
    their order; the entry of a customer without a cart comes last. *)
Theorem addItemToCart_state c i (r : Register.t) :
  Register.lock r = false →
  carts_wf (Register.customer_cart_map r) →
  ∃ r', Register.addItemToCart c i r = Returns () r'
        ∧ carts_wf (Register.customer_cart_map r')
        ∧ Register.getRegisterState r' ≡ₚ c :: Register.getRegisterState r
        ∧ filter (λ owner, owner ≠ c) (Register.getRegisterState r')
          = filter (λ owner, owner ≠ c) (Register.getRegisterState r)
        ∧ (PyDict.get c (Register.customer_cart_map r) = None →
           Register.getRegisterState r' = Register.getRegisterState r ++ [c]).
Proof.
  intros Hl Hwf. exists (with_item c i r).
  split; [by rewrite addItemToCart_spec, Hl|].
  split; [by apply carts_wf_with_item|].
  rewrite !getRegisterState_owners. unfold with_item; simpl.
  destruct (PyDict.get c (Register.customer_cart_map r)) as [cart|] eqn:Hg; simpl.
  - destruct (owners_of_carts_set c i cart _ (proj2 Hwf) Hg) as [Hperm Hfilter].
    by split_and!.
  - rewrite set_absent, owners_of_carts_app by done. simpl.
    split_and!; [| | done].
    + by rewrite <- Permutation_cons_append.
    + rewrite filter_app, filter_cons_False by (intros Hcc; by apply Hcc).
      by rewrite filter_nil, app_nil_r.
Qed.

Lemma addItemToCart_state_witness :
  ∃ r', Register.addItemToCart "c2" "banana"
          (Register.mk 0 [("c1", Cart.mk "c1" ["apple"])] false) = Returns () r'
        ∧ Register.getRegisterState r' = ["c1"; "c2"].
Proof.
  destruct (addItemToCart_state "c2" "banana"
              (Register.mk 0 [("c1", Cart.mk "c1" ["apple"])] false))
    as (r' & Hret & _ & _ & _ & Hnew).
  - reflexivity.
  - split; [apply NoDup_singleton | by repeat constructor].
  - exists r'. split; [exact Hret | by apply Hnew].
Defined.

(** * Further properties of the store *)

(** X5.  [lockRegisters] followed by [unlockRegisters] gives the store
    back as it was when no lock was held, and blocks otherwise.  When
    [lockRegisters] returns, every lock of the pool is held and the
    registers are otherwise as before. *)
Theorem lockRegisters_unlockRegisters (s : Store.t) :
  (Store.lockRegisters ;; Store.unlockRegisters) s
  = (if decide (locks_free s) then Returns () s else Blocks)
  ∧ (∀ s', Store.lockRegisters s = Returns () s' →
       locks_free s
       ∧ Forall (λ r, Register.lock r = true) (Store.registers s')
       ∧ Store.registers s' = Register.set_lock true <$> Store.registers s
       ∧ Store.register_map s' = Store.register_map s).
Proof.
  split.
  - unfold bind. rewrite lockRegisters_spec.
    destruct (decide (locks_free s)); [|done]. by apply unlockRegisters_lock_all.
  - intros s'. rewrite lockRegisters_spec.
    destruct (decide (locks_free s)); [|done]. intros [= <-].
    split_and!; [done | | done | done].
    simpl. apply Forall_fmap, Forall_true. by intros r.
Qed.

Lemma lockRegisters_unlockRegisters_witness :
  locks_free scenario_store
  ∧ Forall (λ r, Register.lock r = true) (Store.registers (lock_all scenario_store)).
Proof.
  destruct (lockRegisters_unlockRegisters scenario_store) as [_ Hheld].
  destruct (Hheld (lock_all scenario_store)) as (Hfree & Hall & _); [|by split].
  vm_compute. reflexivity.
Defined.

(** X6.  A fresh store: [Store(n)] has [n] registers (none for
    [n <= 0]), no routing entry and no pending item, and
    [getAllRegisterState] returns the mapping of the ids [0 .. n-1] to the
    empty sequence, leaving the store as it is. *)
Theorem fresh_store_state n :
  length (Store.registers (Store.init n)) = Z.to_nat n
  ∧ Store.register_map (Store.init n) = ∅
  ∧ total_items (Store.init n) = 0%Z
  ∧ ∃ state,
      Store.getAllRegisterState (Store.init n) = Returns state (Store.init n)
      ∧ ∀ id, state !! id = if decide (id < Z.to_nat n) then Some [] else None.
Proof.
  split_and!.
  - unfold Store.init; simpl. by rewrite length_fmap, length_seq.
  - done.
  - apply total_items_init.
  - exists (states_of (Store.registers (Store.init n)) ∅). split.
    + rewrite getAllRegisterState_spec, decide_True; [done | apply locks_free_init].
    + intros id. unfold Store.init; simpl.
      assert (Register.register_id <$> (Register.init <$> seq 0 (Z.to_nat n))
              = seq 0 (Z.to_nat n)) as Hids.
      { rewrite <- list_fmap_compose. rewrite <- (list_fmap_id (seq _ _)) at 2.
        by apply list_fmap_ext. }
      destruct (decide (id < Z.to_nat n)) as [Hlt|Hge].
      * pose proof (states_of_lookup (Register.init <$> seq 0 (Z.to_nat n)) ∅ id
                      (Register.init id)) as Hlook.
        simpl in Hlook. apply Hlook.
        -- rewrite Hids. apply NoDup_seq.
        -- rewrite list_lookup_fmap, lookup_seq_lt by done. done.
      * rewrite states_of_other, lookup_empty; [done|].
        rewrite Hids, elem_of_seq. lia.
Qed.

(** X7.  After a [checkoutCustomer] that returned, a second
    [checkoutCustomer] for the same customer raises
    [Exception("Attempted to checkout customer without a cart")] and
    leaves the store as it is. *)
Theorem checkoutCustomer_twice c (s s' : Store.t) :
  Store.checkoutCustomer c s = Returns () s' →
  Store.checkoutCustomer c s' = Raises no_cart s'.
Proof.
  intros Hret.
  assert (Store.register_map s' !! c = None) as Hgone.
  { rewrite checkoutCustomer_spec in Hret.
    destruct (Store.register_map s !! c) as [r|]; [|done].
    destruct (Store.registers s !! r) as [reg|]; [|done].
    destruct (Register.lock reg); [done|].
    destruct (PyDict.contains c _); [|done].
    injection Hret as <-. simpl. apply lookup_delete_eq. }
  by rewrite checkoutCustomer_spec, Hgone.
Qed.

Lemma checkoutCustomer_twice_witness :
  Store.checkoutCustomer "c1" checked_out_store = Raises no_cart checked_out_store.
Proof.
  apply (checkoutCustomer_twice "c1" scenario_store checked_out_store).
  vm_compute. reflexivity.
Defined.

(** X13.  The two scans only read: when [getLeastUtilizedRegister] or
    [getAllRegisterState] returns, no lock was held at the call and the
    store is as it was; the register returned is one of the pool;
    [getAllRegisterState] raises nothing. *)
Theorem scans_read_only (s : Store.t) :
  (∀ register s', Store.getLeastUtilizedRegister s = Returns register s' →
     s' = s ∧ locks_free s ∧ register < length (Store.registers s))
  ∧ (∀ state s', Store.getAllRegisterState s = Returns state s' →
       s' = s ∧ locks_free s)
  ∧ (∀ e s', Store.getAllRegisterState s ≠ Raises e s').
Proof.
  split_and!.
  - intros register s'. rewrite getLeastUtilizedRegister_spec.
    destruct (decide (locks_free s)); [|done].
    pose proof (select_spec (totals s)) as Hsel.
    destruct (select _ _ _ _) as [r|]; [|done].
    intros [= <- <-]. destruct Hsel as [Hlt _]. by rewrite length_totals in Hlt.
  - intros state s'. rewrite getAllRegisterState_spec.
    destruct (decide (locks_free s)); [|done]. by intros [= _ <-].
  - intros e s'. rewrite getAllRegisterState_spec.
    by destruct (decide (locks_free s)).
Qed.

Lemma scans_read_only_witness :
  locks_free scenario_store ∧ 1 < length (Store.registers scenario_store).
Proof.
  destruct (scans_read_only scenario_store) as [Hscan _].
  destruct (Hscan 1 scenario_store) as (_ & Hfree & Hlt); [|by split].
  vm_compute. reflexivity.
Defined.

Lemma run_app ops1 ops2 (s : Store.t) t :
  run (ops1 ++ ops2) s t
  = match run ops1 s t with
    | Some (s1, t1) => run ops2 s1 t1
    | None => None
    end.
Proof.
  revert s t. induction ops1 as [|o ops1 IH]; intros s t; simpl; [done|].
  by destruct (call o s).
Qed.

Lemma foldl_with_item_facts c items (reg : Register.t) :
  let reg' := foldl (λ reg i, with_item c i reg) reg items in
  Register.lock reg' = Register.lock reg
  ∧ without_cart c reg' = without_cart c reg
  ∧ from_option Cart.items [] (PyDict.get c (Register.customer_cart_map reg'))
    = from_option Cart.items [] (PyDict.get c (Register.customer_cart_map reg)) ++ items
  ∧ (items ≠ [] → PyDict.contains c (Register.customer_cart_map reg') = true).
Proof.
  revert reg. induction items as [|i items IH]; intros reg; simpl.
  - rewrite app_nil_r. split_and!; [done | done | done |]. by intros [].
  - destruct (IH (with_item c i reg)) as (Hl & Hw & Hi & Hc). split_and!.
    + by rewrite Hl.
    + by rewrite Hw, without_cart_with_item.
    + rewrite Hi.
      assert (from_option Cart.items []
                (PyDict.get c (Register.customer_cart_map (with_item c i reg)))
              = from_option Cart.items []
                  (PyDict.get c (Register.customer_cart_map reg)) ++ [i]) as ->.
      { unfold with_item; simpl. rewrite get_set_eq; simpl.
        destruct (PyDict.get c (Register.customer_cart_map reg)); reflexivity. }
      by rewrite <- app_assoc.
    + intros _. destruct items as [|i' items]; [apply contains_with_item | by apply Hc].
Qed.

(** A run of [assignItem] calls for a customer that is routed to a
    register whose lock is free. *)
Lemma run_assign_routed c items regs rm r reg t :
  regs !! r = Some reg → Register.lock reg = false → rm !! c = Some r →
  run (AssignItem c <$> items) (Store.mk regs rm) t
  = Some (Store.mk (<[r := foldl (λ reg i, with_item c i reg) reg items]> regs) rm,
          mkTally (assigned t + Z.of_nat (length items)) (removed t)).
Proof.
  revert regs reg t. induction items as [|i items IH]; intros regs reg t Hr Hl Hc.
  - simpl. rewrite list_insert_id by done. destruct t; simpl. do 3 f_equal. lia.
  - cbn [fmap list_fmap run call]. rewrite assignItem_spec; simpl. rewrite Hc, Hr, Hl.
    unfold Store.set_registers; simpl.
    assert (r < length regs) as Hlt by (by eapply lookup_lt_Some).
    rewrite (IH _ (with_item c i reg)); [| by apply list_lookup_insert_eq | done | done].
    rewrite list_insert_insert_eq. simpl. do 3 f_equal. lia.
Qed.

(** X8.  A customer that comes, has items assigned and is checked out
    leaves no trace: on a consistent store with a non-empty pool, no lock
    held and totals that fit, a run of [assignItem] calls for a customer
    without a routing entry, followed by [checkoutCustomer] for that
    customer, ends in the store it started from; every call of the run
    returns, and the checkout takes away as many items as were assigned. *)
Theorem assign_checkout_round_trip c items (s : Store.t) t :
  items ≠ [] → Store.registers s ≠ [] →
  locks_free s → representable s → consistent s →
  Store.register_map s !! c = None →
  run ((AssignItem c <$> items) ++ [CheckoutCustomer c]) s t
  = Some (s, mkTally (assigned t + Z.of_nat (length items))
                     (removed t + Z.of_nat (length items))).
Proof.
  intros Hitems Hne Hfree Hrep Hcons Hc.
  destruct items as [|i items]; [done|].
  destruct (select_Some (totals s)) as [r Hsel];
    [by apply totals_nonempty | by apply representable_totals |].
  pose proof (select_spec (totals s)) as Hspec. rewrite Hsel in Hspec.
  destruct Hspec as [Hlt _]. rewrite length_totals in Hlt.
  destruct (lookup_lt_is_Some_2 _ _ Hlt) as [reg Hr].
  pose proof (Forall_lookup_1 _ _ _ _ Hfree Hr) as Hl. simpl in Hl.
  assert (PyDict.get c (Register.customer_cart_map reg) = None) as Habsent.
  { destruct (PyDict.get c _) as [cart|] eqn:Hg; [|done].
    assert (is_Some (cart_at c r s)) as Hsome
      by (rewrite (cart_at_Some_lookup _ _ _ _ Hr), Hg; eauto).
    apply (cons_routing s Hcons) in Hsome. congruence. }
  rewrite run_app. cbn [fmap list_fmap run call].
  rewrite assignItem_spec, Hc, decide_True, Hsel, Hr by done.
  destruct s as [regs rm]; unfold Store.set_register_map, Store.set_registers;
    simpl in *.
  destruct (foldl_with_item_facts c items (with_item c i reg))
    as (Hl' & Hw & Hi & _).
  destruct (foldl_with_item_facts c (i :: items) reg) as (_ & _ & _ & Hin).
  simpl in Hin, Hl', Hw, Hi.
  rewrite (run_assign_routed c items _ _ r (with_item c i reg));
    [| by apply list_lookup_insert_eq | done | apply lookup_insert_eq].
  rewrite list_insert_insert_eq. simpl.
  rewrite checkoutCustomer_spec; simpl.
  rewrite lookup_insert_eq, list_lookup_insert_eq by done.
  rewrite Hl', Hl, Hin by done.
  unfold Store.set_register_map, Store.set_registers; simpl.
  rewrite list_insert_insert_eq, Hw, without_cart_with_item,
    without_cart_absent, list_insert_id, delete_insert_eq by done.
  rewrite delete_id by done.
  match goal with |- context [items_in_cart c ?s1] =>
    assert (items_in_cart c s1 = Z.of_nat (S (length items))) as ->
  end.
  { unfold items_in_cart, pending, cart_at; simpl.
    rewrite lookup_insert_eq, list_lookup_insert_eq by done.
    rewrite Hi. unfold with_item; simpl. rewrite get_set_eq, Habsent; simpl.
    lia. }
  do 3 f_equal; lia.
Qed.

Lemma assign_checkout_round_trip_witness :
  run ((AssignItem "c1" <$> ["apple"; "pear"]) ++ [CheckoutCustomer "c1"])
      (Store.init 2) tally0
  = Some (Store.init 2, mkTally 2 2).
Proof.
  apply (assign_checkout_round_trip "c1" ["apple"; "pear"] (Store.init 2) tally0).
  - done.
  - done.
  - apply locks_free_init.
  - repeat constructor.
  - apply consistent_init.
  - reflexivity.
Defined.

(** ** Carts are never empty *)

Lemma same_carts_lookup (s s' : Store.t) i r' :
  Register.set_lock false <$> Store.registers s'
  = Register.set_lock false <$> Store.registers s →
  Store.registers s' !! i = Some r' →
  ∃ r, Store.registers s !! i = Some r
       ∧ Register.customer_cart_map r' = Register.customer_cart_map r.
Proof.
  intros Hregs Hi.
  assert ((Register.set_lock false <$> Store.registers s) !! i
          = Some (Register.set_lock false r')) as Hl
    by (by rewrite <- Hregs, list_lookup_fmap, Hi).
  apply list_lookup_fmap_Some_1 in Hl as (r & Heq & Hr).
  exists r. split; [done|]. by injection Heq as _ ->.
Qed.

Lemma carts_nonempty_call o (s s' : Store.t) :
  carts_nonempty s → completes (call o s) s' → carts_nonempty s'.
Proof.
  intros Hne.
  destruct (call o s) as [[] s1|e s1|] eqn:Hcall; cbn [completes]; [| |done];
    intros <-.
  - destruct o as [c i|c]; simpl in Hcall.
    + assert (∀ r reg, Store.registers s !! r = Some reg →
                Forall (λ kv : string * Cart.t, Cart.items kv.2 ≠ [])
                       (Register.customer_cart_map (with_item c i reg))) as Hwith.
      { intros r reg Hr. pose proof (Forall_lookup_1 _ _ _ _ Hne Hr) as Hreg.
        simpl in Hreg. rewrite Forall_forall in Hreg |- *.
        intros kv [->|Hin]%elem_of_set; [|by apply Hreg].
        simpl. by intros [? ?]%app_eq_nil. }
      rewrite assignItem_spec in Hcall.
      destruct (Store.register_map s !! c) as [r|].
      * destruct (Store.registers s !! r) as [reg|] eqn:Hr; [|done].
        destruct (Register.lock reg); [done|]. injection Hcall as <-.
        apply Forall_insert; [done | by apply (Hwith r)].
      * destruct (decide (locks_free s)); [|done].
        destruct (select _ _ _ _) as [r|]; [|done].
        destruct (Store.registers s !! r) as [reg|] eqn:Hr; [|done].
        injection Hcall as <-. apply Forall_insert; [done | by apply (Hwith r)].
    + rewrite checkoutCustomer_spec in Hcall.
      destruct (Store.register_map s !! c) as [r|]; [|done].
      destruct (Store.registers s !! r) as [reg|] eqn:Hr; [|done].
      destruct (Register.lock reg); [done|].
      destruct (PyDict.contains c _); [|done]. injection Hcall as <-.
      apply Forall_insert; [done|].
      pose proof (Forall_lookup_1 _ _ _ _ Hne Hr) as Hreg.
      simpl in Hreg. rewrite Forall_forall in Hreg |- *.
      intros kv Hin%elem_of_del. by apply Hreg.
  - destruct (call_raises_same _ _ _ _ Hcall) as [_ Hregs].
    apply Forall_lookup. intros i r' Hi.
    destruct (same_carts_lookup _ _ _ _ Hregs Hi) as (r & Hr & ->).
    by apply (Forall_lookup_1 _ _ _ _ Hne Hr).
Qed.

Lemma carts_nonempty_run ops (s s' : Store.t) t t' :
  carts_nonempty s → run ops s t = Some (s', t') → carts_nonempty s'.
Proof.
  revert s t. induction ops as [|o ops IH]; intros s t Hne.
  - by intros [= <- _].
  - intros (s1 & t1 & Hcall & Hrun & _)%run_cons.
    eapply IH; [|exact Hrun]. by eapply carts_nonempty_call.
Qed.

Lemma items_of_carts_zero d :
  Forall (λ kv : string * Cart.t, Cart.items kv.2 ≠ []) d →
  items_of_carts d = 0%Z ↔ d = [].
Proof.
  intros Hne. split; [|by intros ->].
  destruct d as [|[k v] d]; [done|]. simpl.
  apply Forall_cons in Hne as [Hv _]. simpl in Hv.
  pose proof (items_of_carts_nonneg d). unfold Cart.size.
  destruct (Cart.items v); [done|]. simpl length. lia.
Qed.

(** X10.  In every store that a run of calls reaches from a fresh store
    no cart is empty; so a register holds no item exactly when it holds
    no cart, and the register that the scan returns at once is one
    without customers. *)
Theorem carts_never_empty n ops (s : Store.t) t :
  run ops (Store.init n) tally0 = Some (s, t) →
  ∀ r reg, Store.registers s !! r = Some reg →
    Forall (λ kv : string * Cart.t, Cart.items kv.2 ≠ [])
           (Register.customer_cart_map reg)
    ∧ (Register.getTotalItems reg = 0%Z ↔ Register.customer_cart_map reg = [])
    ∧ (Register.getRegisterState reg = [] ↔ Register.customer_cart_map reg = []).
Proof.
  intros Hrun r reg Hr.
  assert (carts_nonempty s) as Hne.
  { eapply carts_nonempty_run; [|exact Hrun].
    unfold carts_nonempty, Store.init; simpl.
    apply Forall_fmap, Forall_true. intros i. constructor. }
  pose proof (Forall_lookup_1 _ _ _ _ Hne Hr) as Hreg. simpl in Hreg.
  split_and!; [done | |].
  - rewrite getTotalItems_sum. by apply items_of_carts_zero.
  - rewrite <- (items_of_carts_zero _ Hreg), <- length_owners_of_carts,
      getRegisterState_owners.
    destruct (owners_of_carts _); simpl; split; (done || lia).
Qed.

Lemma carts_never_empty_witness :
  Register.getTotalItems (Register.mk 0 [] false) = 0%Z
  ↔ Register.customer_cart_map (Register.mk 0 [] false) = [].
Proof.
  destruct (carts_never_empty 2
              (scenario_ops ++ [CheckoutCustomer "c1"; CheckoutCustomer "c1"])
              checked_out_store (mkTally 3 2)) with (r := 0) (reg := Register.mk 0 [] false)
    as (_ & Hzero & _).
  - vm_compute. reflexivity.
  - reflexivity.
  - exact Hzero.
Defined.

(** ** New customers are dealt to the registers in turn *)

Lemma dealt_lookup_lt n q k j :
  j < k → dealt n q k !! j = Some (Z.of_nat (S q)).
Proof.
  intros Hj. unfold dealt. rewrite lookup_app_l by (rewrite length_replicate; lia).
  by apply lookup_replicate_2.
Qed.

Lemma dealt_lookup_ge n q k j :
  k ≤ j → j < n → dealt n q k !! j = Some (Z.of_nat q).
Proof.
  intros Hk Hj. unfold dealt. rewrite lookup_app_r by (rewrite length_replicate; lia).
  rewrite length_replicate. apply lookup_replicate_2. lia.
Qed.

Lemma length_dealt n q k : k ≤ n → length (dealt n q k) = n.
Proof. intros Hk. unfold dealt. rewrite length_app, !length_replicate. lia. Qed.

(** On totals dealt in turn the scan selects the next register in turn. *)
Lemma select_dealt n q k :
  k < n → (Z.of_nat (S q) < sys_maxsize)%Z →
  select (dealt n q k) 0 sys_maxsize None = Some k.
Proof.
  intros Hk Hq. pose proof (select_spec (dealt n q k)) as Hsel.
  pose proof (dealt_lookup_ge n q k k (le_n _) Hk) as Hat.
  destruct (select _ _ _ _) as [i|].
  - destruct Hsel as (Hi & Hempty & Hleast). rewrite length_dealt in Hi by lia.
    f_equal. destruct (decide (0%Z ∈ dealt n q k)) as [Hin|Hnot].
    + destruct (Hempty Hin) as [Hz Hbefore].
      destruct (decide (i < k)) as [Hlt|Hge].
      { rewrite dealt_lookup_lt in Hz by done. injection Hz. lia. }
      rewrite dealt_lookup_ge in Hz by lia. injection Hz as Hq0.
      destruct (decide (k < i)) as [Hgt|]; [|lia].
      assert (take i (dealt n q k) !! k = Some (Z.of_nat q)) as Hk'
        by (by rewrite lookup_take_lt).
      apply (Forall_lookup_1 _ _ _ _ Hbefore) in Hk'. simpl in Hk'. lia.
    + destruct (Hleast Hnot) as (t & Ht & Hmin & Hbefore).
      pose proof (Forall_lookup_1 _ _ _ _ Hmin Hat) as Hle. simpl in Hle.
      destruct (decide (i < k)) as [Hlt|Hge].
      { rewrite dealt_lookup_lt in Ht by done. injection Ht. lia. }
      rewrite dealt_lookup_ge in Ht by lia. injection Ht as <-.
      destruct (decide (k < i)) as [Hgt|]; [|lia].
      assert (take i (dealt n q k) !! k = Some (Z.of_nat q)) as Hk'
        by (by rewrite lookup_take_lt).
      apply (Forall_lookup_1 _ _ _ _ Hbefore) in Hk'. simpl in Hk'. lia.
  - apply (Forall_lookup_1 _ _ _ _ Hsel) in Hat. simpl in Hat. lia.
Qed.

Lemma dealt_next n j :
  0 < n →
  <[j mod n := Z.of_nat (S (j / n))]> (dealt n (j / n) (j mod n))
  = dealt n (S j / n) (S j mod n).
Proof.
  intros Hn. pose proof (Nat.mod_upper_bound j n ltac:(lia)) as Hk.
  pose proof (Nat.div_mod_eq j n) as Hj.
  set (q := j / n) in *. set (k := j mod n) in *.
  unfold dealt at 1.
  replace k with (length (replicate k (Z.of_nat (S q))) + 0) at 1
    by (rewrite length_replicate; lia).
  rewrite insert_app_r.
  destruct (n - k) as [|m] eqn:Hm; [lia|]. simpl.
  destruct (decide (S k < n)) as [Hlt|Hge].
  - assert (S j mod n = S k) as -> by (symmetry; apply (Nat.mod_unique _ _ q); lia).
    assert (S j / n = q) as -> by (symmetry; apply (Nat.div_unique _ _ _ (S k)); lia).
    unfold dealt. replace (n - S k) with m by lia.
    by rewrite (cons_middle _ (replicate k _)), app_assoc, <- replicate_cons_app.
  - assert (S j mod n = 0) as -> by (symmetry; apply (Nat.mod_unique _ _ (S q)); lia).
    assert (S j / n = S q) as -> by (symmetry; apply (Nat.div_unique _ _ _ 0); lia).
    unfold dealt. simpl. replace m with 0 by lia. simpl.
    rewrite Nat.sub_0_r. replace n with (S k) by lia.
    by rewrite <- replicate_cons_app.
Qed.

Lemma totals_insert_with_item c i r reg (s : Store.t) :
  Store.registers s !! r = Some reg →
  totals (Store.set_registers <[r := with_item c i reg]> s)
  = <[r := (Register.getTotalItems reg + 1)%Z]> (totals s).
Proof.
  intros Hr. unfold totals; simpl.
  by rewrite list_fmap_insert, getTotalItems_with_item.
Qed.

(** One more new customer on a store dealt so far. *)
Lemma assignItem_dealt n j c i (s : Store.t) :
  0 < n → locks_free s → totals s = dealt n (j / n) (j mod n) →
  Store.register_map s !! c = None →
  (Z.of_nat (S j) < sys_maxsize)%Z →
  ∃ s', Store.assignItem c i s = Returns () s'
        ∧ Store.register_map s' = <[c := j mod n]> (Store.register_map s)
        ∧ locks_free s'
        ∧ totals s' = dealt n (S j / n) (S j mod n).
Proof.
  intros Hn Hfree Htotals Hc Hroom.
  pose proof (Nat.mod_upper_bound j n ltac:(lia)) as Hk.
  pose proof (Nat.div_mod_eq j n) as Hj.
  assert (j / n ≤ j) as Hq by nia.
  rewrite assignItem_spec, Hc, decide_True, Htotals, select_dealt by (done || lia).
  assert (totals s !! (j mod n) = Some (Z.of_nat (j / n))) as Hat
    by (rewrite Htotals; by apply dealt_lookup_ge).
  apply list_lookup_fmap_Some_1 in Hat as (reg & Htot & Hr).
  rewrite Hr. eexists. split_and!; [done | done | |].
  - unfold locks_free; simpl. apply Forall_insert; [done|].
    by apply (Forall_lookup_1 _ _ _ _ Hfree Hr).
  - change (totals (Store.set_register_map _ ?s0)) with (totals s0).
    rewrite (totals_insert_with_item _ _ _ _ _ Hr), <- Htot, Htotals.
    rewrite <- (dealt_next n j) by done. f_equal. lia.
Qed.

Lemma totals_fresh a n :
  Register.getTotalItems <$> (Register.init <$> seq a n) = replicate n 0%Z.
Proof. revert a. induction n as [|n IH]; intros a; csimpl; [done|]. by rewrite IH. Qed.

Lemma totals_init n : totals (Store.init (Z.of_nat n)) = dealt n 0 0.
Proof.
  unfold totals, Store.init, dealt; simpl.
  by rewrite Nat2Z.id, Nat.sub_0_r, totals_fresh.
Qed.

Lemma round_robin_run n :
  0 < n →
  ∀ customers items (s : Store.t) j t,
    length items = length customers → NoDup customers →
    (∀ c, c ∈ customers → Store.register_map s !! c = None) →
    locks_free s → totals s = dealt n (j / n) (j mod n) →
    (Z.of_nat (j + length customers) < sys_maxsize)%Z →
    ∃ s' t',
      run (zip_with AssignItem customers items) s t = Some (s', t')
      ∧ (∀ i c, customers !! i = Some c →
                Store.register_map s' !! c = Some ((j + i) mod n))
      ∧ (∀ c, c ∉ customers → Store.register_map s' !! c = Store.register_map s !! c)
      ∧ totals s'
        = dealt n ((j + length customers) / n) ((j + length customers) mod n).
Proof.
  intros Hn customers.
  induction customers as [|c customers IH]; intros items s j t Hlen Hnd Hnew Hfree Htot Hroom.
  - exists s, t. destruct items; [|done]. simpl.
    rewrite Nat.add_0_r. by split_and!.
  - destruct items as [|i items]; [done|]. simpl in Hlen, Hroom.
    apply NoDup_cons in Hnd as [Hnotin Hnd].
    destruct (assignItem_dealt n j c i s) as (s1 & Hret & Hmap & Hfree1 & Htot1);
      [done | done | done | apply Hnew, list_elem_of_here | lia |].
    destruct (IH items s1 (S j) (credit (AssignItem c i) s t))
      as (s' & t' & Hrun & Hpos & Hrest & Htot'); [lia | done | | done | done | lia |].
    { intros c' Hin. rewrite Hmap, lookup_insert_ne by (intros ->; done).
      apply Hnew. by apply list_elem_of_further. }
    exists s', t'. split_and!.
    + cbn [zip_with run call]. by rewrite Hret.
    + intros [|i'] c'; simpl.
      * intros [= <-]. rewrite Hrest, Hmap, lookup_insert_eq by done.
        by rewrite Nat.add_0_r.
      * intros Hc'. rewrite (Hpos _ _ Hc'). do 2 f_equal. lia.
    + intros c' [Hne Hnot]%not_elem_of_cons.
      by rewrite Hrest, Hmap, lookup_insert_ne.
    + rewrite Htot'. cbn [length]. by rewrite Nat.add_succ_comm.
Qed.

(** X9.  On a fresh store of [n > 0] registers, [assignItem] calls for
    customers that are all different deal the customers to the registers
    in turn: every call returns, the customer of the [j]-th call is
    routed to register [j mod n], and at the end the first registers hold
    one item more than the others. *)
Theorem round_robin n customers items :
  0 < n → NoDup customers → length items = length customers →
  (Z.of_nat (length customers) < sys_maxsize)%Z →
  ∃ s t,
    run (zip_with AssignItem customers items) (Store.init (Z.of_nat n)) tally0
    = Some (s, t)
    ∧ (∀ j c, customers !! j = Some c → Store.register_map s !! c = Some (j mod n))
    ∧ totals s = dealt n (length customers / n) (length customers mod n).
Proof.
  intros Hn Hnd Hlen Hroom.
  destruct (round_robin_run n Hn customers items (Store.init (Z.of_nat n)) 0 tally0)
    as (s & t & Hrun & Hpos & _ & Htot); try done.
  - apply locks_free_init.
  - rewrite Nat.Div0.div_0_l, Nat.Div0.mod_0_l. apply totals_init.
  - by exists s, t.
Qed.

Lemma round_robin_witness :
  ∃ s t,
    run (zip_with AssignItem ["c1"; "c2"; "c3"] ["apple"; "banana"; "pear"])
        (Store.init 2) tally0 = Some (s, t)
    ∧ Store.register_map s !! "c3" = Some 0
    ∧ totals s = [2; 1]%Z.
Proof.
  destruct (round_robin 2 ["c1"; "c2"; "c3"] ["apple"; "banana"; "pear"])
    as (s & t & Hrun & Hpos & Htot).
  - lia.
  - repeat (apply NoDup_cons; split; [by vm_compute; intros H; repeat (apply elem_of_cons in H as [H|H]; [done|]); by apply elem_of_nil in H|]).
    apply NoDup_nil_2.
  - reflexivity.
  - reflexivity.
  - exists s, t. split_and!; [exact Hrun | exact (Hpos 2 "c3" eq_refl) | exact Htot].
Defined.

(** * The HTTP adapter *)





Lemma registers_response_free (s : Store.t) :
  locks_free s →
  Api.registers_response s
  = Responds (mkResponse (Some (states_of (Store.registers s) ∅)) CREATED) (Some s).
Proof.
  intros Hfree. unfold Api.registers_response.
  by rewrite getAllRegisterState_spec, decide_True.
Qed.





(** X12.  Before the first reset the module variable [store] is not
    bound: served from the start, requests other than a reset leave it
    unbound; [health] answers [OK] and every [add] and [checkout] raises
    [NameError]. *)
Theorem service_before_reset rqs :
  DeleteState ∉ rqs →
  ∃ rs, serve rqs None = Some (rs, None)
        ∧ Forall2 (λ rq r, match rq with
                           | GetHealth => r = inl (mkResponse None OK)
                           | _ => r = inr (NameError "store")
                           end) rqs rs.
Proof.
  induction rqs as [|rq rqs IH]; intros Hnot.
  - exists []. by split.
  - apply not_elem_of_cons in Hnot as [Hne Hnot].
    destruct (IH Hnot) as (rs & Hserve & Hall).
    destruct rq as [| |c i|c]; [| done | |]; simpl; rewrite Hserve;
      eexists; (split; [done | by constructor]).
Qed.

Lemma service_before_reset_witness :
  serve [GetHealth; PostAdd "c1" "apple"; PostCheckout "c1"] None
  = Some ([inl (mkResponse None OK); inr (NameError "store"); inr (NameError "store")],
          None).
Proof.
  destruct (service_before_reset [GetHealth; PostAdd "c1" "apple"; PostCheckout "c1"])
    as (rs & Hserve & Hall).
  - intros Hin. repeat (apply elem_of_cons in Hin as [Hin|Hin]; [done|]).
    by apply elem_of_nil in Hin.
  - reflexivity.
Defined.

(** X14.  A reset discards what the store held: whatever the store was,
    the first [add] after a reset answers [CREATED] with the registers
    [0 .. 24], the one entry of the customer at register [0] and every
    other register empty. *)
Theorem first_add_after_reset store c i :
  ∃ state s',
    serve [DeleteState; PostAdd c i] store
    = Some ([inl (mkResponse None OK); inl (mkResponse (Some state) CREATED)],
            Some s')
    ∧ state !! 0 = Some [c]
    ∧ (∀ id, 0 < id < 25 → state !! id = Some [])
    ∧ (∀ id, 25 ≤ id → state !! id = None)
    ∧ Store.register_map s' !! c = Some 0.
Proof.
  set (s1 := Store.mk (<[0 := with_item c i (Register.init 0)]>
                         (Register.init <$> seq 0 25))
                      (<[c := 0]> ∅)).
  assert (Store.assignItem c i (Store.init 25) = Returns () s1) as Hadd.
  { rewrite assignItem_spec.
    change (Store.register_map (Store.init 25)) with (∅ : gmap string nat).
    rewrite lookup_empty, decide_True by apply locks_free_init. reflexivity. }
  assert (consistent s1) as Hcons.
  { apply (consistent_call (AssignItem c i) (Store.init 25)); [apply consistent_init|].
    simpl. by rewrite Hadd. }
  assert (locks_free s1) as Hfree.
  { unfold locks_free, s1; simpl. by repeat constructor. }
  pose proof (register_ids_seq _ (cons_ids s1 Hcons)) as Hids.
  assert (length (Store.registers s1) = 25) as Hlen by done.
  exists (states_of (Store.registers s1) ∅), s1. split_and!.
  - cbn [serve dispatch]. unfold Api.reset, Api.add. rewrite Hadd.
    by rewrite registers_response_free.
  - apply (states_of_lookup _ _ 0 (with_item c i (Register.init 0)));
      [rewrite Hids; apply NoDup_seq | done].
  - intros id [Hpos Hlt].
    apply (states_of_lookup _ _ id (Register.init id));
      [rewrite Hids; apply NoDup_seq |].
    unfold s1; cbn [Store.registers].
    rewrite list_lookup_insert_ne by lia.
    rewrite list_lookup_fmap, lookup_seq_lt by done. done.
  - intros id Hge. rewrite states_of_other, lookup_empty; [done|].
    rewrite Hids, Hlen, elem_of_seq. lia.
  - apply lookup_insert_eq.
Qed.

(** * Which locks a call waits for *)

(** X15.  [assignItem] for a customer with a routing entry waits for
    the lock of that customer's register and for no other: it blocks
    exactly when that lock is held.  For a customer without a routing
    entry it scans the pool and blocks exactly when some lock of the pool
    is held.  [checkoutCustomer] blocks exactly when the customer is
    routed to a register whose lock is held. *)
Theorem calls_block_on (s : Store.t) c i :
  (∀ r reg, Store.register_map s !! c = Some r → Store.registers s !! r = Some reg →
     (Store.assignItem c i s = Blocks ↔ Register.lock reg = true)
     ∧ (Store.checkoutCustomer c s = Blocks ↔ Register.lock reg = true))
  ∧ (Store.register_map s !! c = None →
     (Store.assignItem c i s = Blocks ↔ ¬ locks_free s)
     ∧ Store.checkoutCustomer c s ≠ Blocks).
Proof.
  split.
  - intros r reg Hc Hr.
    rewrite assignItem_spec, checkoutCustomer_spec, Hc, Hr.
    destruct (Register.lock reg); [by split|].
    split; [by split|]. by destruct (PyDict.contains c _).
  - intros Hc. rewrite assignItem_spec, checkoutCustomer_spec, Hc.
    split; [|done].
    destruct (decide (locks_free s)) as [Hfree|Hheld]; [|by split].
    split; [|done].
    destruct (select _ _ _ _) as [r|]; [|done].
    by destruct (Store.registers s !! r).
Qed.

Lemma calls_block_on_witness :
  Store.assignItem "c1" "kiwi"
    (Store.mk [Register.mk 0 [("c1", Cart.mk "c1" ["apple"])] false;
               Register.mk 1 [] true]
              (<["c1" := 0]> ∅)) ≠ Blocks
  ∧ Store.assignItem "c2" "kiwi"
      (Store.mk [Register.mk 0 [("c1", Cart.mk "c1" ["apple"])] false;
                 Register.mk 1 [] true]
                (<["c1" := 0]> ∅)) = Blocks.
Proof.
  split.
  - destruct (calls_block_on
                (Store.mk [Register.mk 0 [("c1", Cart.mk "c1" ["apple"])] false;
                           Register.mk 1 [] true]
                          (<["c1" := 0]> ∅)) "c1" "kiwi") as [Hrouted _].
    destruct (Hrouted 0 (Register.mk 0 [("c1", Cart.mk "c1" ["apple"])] false))
      as [Hblocks _]; [reflexivity | reflexivity |].
    intros Hb. by apply Hblocks in Hb.
  - destruct (calls_block_on
                (Store.mk [Register.mk 0 [("c1", Cart.mk "c1" ["apple"])] false;
                           Register.mk 1 [] true]
                          (<["c1" := 0]> ∅)) "c2" "kiwi") as [_ Hnew].
    destruct Hnew as [Hblocks _]; [reflexivity|].
    apply Hblocks. intros Hfree.
    apply Forall_cons in Hfree as [_ Hfree]. apply Forall_cons in Hfree as [Hheld _].
    done.
Defined.

(** * One register for each customer *)

Lemma owners_of_carts_elem c d :
  Forall (λ kv : string * Cart.t, Cart.customer_id kv.2 = kv.1) d →
  c ∈ owners_of_carts d → is_Some (PyDict.get c d).
Proof.
  induction d as [|[k v] d IH]; csimpl; [by intros _ ?%elem_of_nil|].
  intros [Hk Hown]%Forall_cons. simpl in Hk.
  destruct (decide (c = k)) as [->|Hne]; [eauto|].
  intros [Hin|Hin]%elem_of_app; [|by apply IH].
  apply elem_of_replicate in Hin as [-> _]. congruence.
Qed.

(** X16.  In every store that a run of calls reaches from a fresh
    store, the entries of a customer are all in the state of one
    register, that of the customer's routing entry: a customer has carts
    at no two registers. *)
Theorem one_register_per_customer n ops (s : Store.t) t c :
  run ops (Store.init n) tally0 = Some (s, t) →
  ∀ r reg, Store.registers s !! r = Some reg →
           c ∈ Register.getRegisterState reg →
           Store.register_map s !! c = Some r.
Proof.
  intros Hrun r reg Hr Hin.
  assert (consistent s) as [Hroute Hcarts _]
    by (eapply consistent_run; [apply consistent_init | exact Hrun]).
  apply Hroute. rewrite (cart_at_Some_lookup _ _ _ _ Hr).
  rewrite getRegisterState_owners in Hin.
  apply owners_of_carts_elem; [|done].
  apply (Forall_lookup_1 _ _ _ _ Hcarts Hr).
Qed.

Lemma one_register_per_customer_witness :
  Store.register_map scenario_store !! "c2" = Some 1.
Proof.
  apply (one_register_per_customer 2 scenario_ops scenario_store (mkTally 3 0) "c2")
    with (reg := Register.mk 1 [("c2", Cart.mk "c2" ["banana"])] false).
  - vm_compute. reflexivity.
  - reflexivity.
  - apply list_elem_of_here.
Defined.
